(** * BoltzPy: operator splitting, transport, collisions, Grid and Geometry

    A shallow embedding of the time-stepping core of BoltzPy
    ([boltzpy/compute.py], [boltzpy/geometry.py], [Grid.py]).

    Conventions of the embedding.
    - numpy [float] arrays are lists of exact rationals ([Q]); a 2D array is
      a list of rows.  Rounding, infinities and NaN are not modelled, so an
      equation between two arithmetic expressions that are equal as real
      numbers is stated with [==] ([Qeq]), everything else with [=].
    - Python [int]s are [Z].  An index into an array of length [n] follows
      numpy: [0 <= i < n] addresses item [i], [-n <= i < 0] addresses item
      [i + n], anything else raises [IndexError].
    - Python exceptions are values of [exn]; a computation that can raise
      returns an [outcome].
    - A function that mutates the object it is given returns the object as
      it is left behind, together with the outcome of the call: what was
      written before an exception stays written. *)

From Stdlib Require Import ZArith QArith Qround Qabs Lia String.
From stdpp Require Import base list gmap sets.

Local Open Scope Z_scope.

(** ** Exceptions and outcomes *)

Inductive exn : Type :=
  | AssertionError
  | IndexError
  | ValueError
  | TypeError
  | NotImplementedError
  | FloatingPointError.

Inductive outcome (A : Type) : Type :=
  | Ok (a : A)
  | Raise (e : exn).
Arguments Ok {A} a.
Arguments Raise {A} e.

#[global] Instance outcome_ret : MRet outcome := λ A a, Ok a.
#[global] Instance outcome_bind : MBind outcome := λ A B f m,
  match m with
  | Ok a => f a
  | Raise e => Raise e
  end.

Definition is_ok {A} (m : outcome A) : bool :=
  match m with Ok _ => true | Raise _ => false end.

(** [assert c]: Python's [assert] statement. *)
Definition assert (c : bool) : outcome unit :=
  if c then Ok tt else Raise AssertionError.

(** ** Arrays *)

Abbreviation row := (list Q).
Abbreviation array := (list (list Q)).

(** numpy's treatment of one integer index on an axis of length [n]. *)
Definition norm_index (n : nat) (i : Z) : outcome nat :=
  if bool_decide (0 ≤ i < Z.of_nat n) then Ok (Z.to_nat i)
  else if bool_decide (- Z.of_nat n ≤ i < 0) then Ok (Z.to_nat (i + Z.of_nat n))
  else Raise IndexError.

(** [a[i]] for an integer [i]. *)
Definition item {A} (a : list A) (i : Z) : outcome A :=
  k ← norm_index (length a) i;
  match a !! k with
  | Some x => Ok x
  | None => Raise IndexError
  end.

(** [a[idx]] for an integer array [idx] (one axis). *)
Definition take {A} (a : list A) (idx : list Z) : outcome (list A) :=
  mapM (item a) idx.

(** [a[:, 0]]. *)
Definition column0 (a : array) : outcome row :=
  mapM (λ r, item r 0) a.

(** [a[np.ix_(rows, cols)]]. *)
Definition ix_ (a : array) (rows cols : list Z) : outcome array :=
  rs ← take a rows;
  mapM (λ r, take r cols) rs.

(** Element-wise binary operation on two 1D arrays with numpy broadcasting of
    a length-one operand. *)
Definition bcast (f : Q → Q → Q) (xs ys : row) : outcome row :=
  if bool_decide (length xs = length ys) then Ok (zip_with f xs ys)
  else match xs, ys with
       | [x], _ => Ok (map (f x) ys)
       | _, [y] => Ok (map (λ x, f x y) xs)
       | _, _ => Raise ValueError
       end.

(** [v op a] and [a op b] for a 2D array [a], row by row. *)
Definition bcast_rows_l (f : Q → Q → Q) (v : row) (a : array) : outcome array :=
  mapM (bcast f v) a.

Fixpoint bcast2 (f : Q → Q → Q) (a b : array) : outcome array :=
  match a, b with
  | [], [] => Ok []
  | r :: a', s :: b' =>
      x ← bcast f r s; rest ← bcast2 f a' b'; Ok (x :: rest)
  | _, _ => Raise ValueError
  end.

(** The value stored by an assignment into a slot that holds [old]: the
    right-hand side must have the slot's length, or length one. *)
Definition fit_row (old new : row) : outcome row :=
  if bool_decide (length new = length old) then Ok new
  else match new with
       | [x] => Ok (replicate (length old) x)
       | _ => Raise ValueError
       end.

(** [a[idx, :] = vals]: all indices are checked first, then the rows are
    stored from left to right (a later duplicate overwrites an earlier one). *)
Fixpoint store_rows (a : array) (ks : list nat) (vals : array) : outcome array :=
  match ks, vals with
  | [], [] => Ok a
  | k :: ks', v :: vals' =>
      match a !! k with
      | Some old => v' ← fit_row old v; store_rows (<[k := v']> a) ks' vals'
      | None => Raise IndexError
      end
  | _, _ => Raise ValueError
  end.

Definition set_rows (a : array) (idx : list Z) (vals : array) : outcome array :=
  ks ← mapM (norm_index (length a)) idx;
  store_rows a ks vals.

(** [r[idx] = vals] on one row. *)
Fixpoint store_items (r : row) (ks : list nat) (vals : row) : outcome row :=
  match ks, vals with
  | [], [] => Ok r
  | k :: ks', v :: vals' => store_items (<[k := v]> r) ks' vals'
  | _, _ => Raise ValueError
  end.

(** [a[:, idx] = vals]. *)
Fixpoint set_columns (a : array) (idx : list Z) (vals : array) : outcome array :=
  match a, vals with
  | [], [] => Ok []
  | r :: a', v :: vals' =>
      ks ← mapM (norm_index (length r)) idx;
      r' ← store_items r ks v;
      rest ← set_columns a' idx vals';
      Ok (r' :: rest)
  | _, _ => Raise ValueError
  end.

(** [np.where(cond)[0]]: the positions at which [cond] holds, ascending. *)
Fixpoint where_from (i : Z) (cond : Q → bool) (xs : row) : list Z :=
  match xs with
  | [] => []
  | x :: xs' => (if cond x then [i] else []) ++ where_from (i + 1) cond xs'
  end.

Definition where_ (cond : Q → bool) (xs : row) : list Z :=
  where_from 0 cond xs.

(** [np.zeros((m, n))]. *)
Definition zeros (m n : nat) : array := replicate m (replicate n 0%Q).

Definition Qltb (x y : Q) : bool := negb (Qle_bool y x).

(** [np.all(a >= 0)]. *)
Definition all_nonneg (a : array) : bool :=
  forallb (forallb (Qle_bool 0)) a.

(** ** The simulation state *)

Record Data : Type := mkData {
  vG : array;              (* velocity grid, one row per velocity *)
  velocity_offset : row;
  dt : Q;
  dp : Q;
  p_dim : Z;
  col : list (list Z);     (* collision quadruples, one row per collision *)
  col_mat : array;         (* one row per velocity, one column per collision *)
  state : array;           (* [point, velocity] *)
  result : array;          (* transport writes here *)
  t : Z
}.

Definition set_state (a : array) (d : Data) : Data :=
  mkData (vG d) (velocity_offset d) (dt d) (dp d) (p_dim d) (col d) (col_mat d)
         a (result d) (t d).
Definition set_result (a : array) (d : Data) : Data :=
  mkData (vG d) (velocity_offset d) (dt d) (dp d) (p_dim d) (col d) (col_mat d)
         (state d) a (t d).
Definition set_t (n : Z) (d : Data) : Data :=
  mkData (vG d) (velocity_offset d) (dt d) (dp d) (p_dim d) (col d) (col_mat d)
         (state d) (result d) n.

(** A procedure that mutates the simulation state. *)
Definition action : Type := Data → Data * outcome unit.

Definition skip : action := λ d, (d, Ok tt).
Definition raise (e : exn) : action := λ d, (d, Raise e).
Definition seq_action (a b : action) : action := λ d,
  match a d with
  | (d', Ok _) => b d'
  | (d', Raise e) => (d', Raise e)
  end.
Notation "a ;;; b" := (seq_action a b) (at level 100, b at level 200, right associativity).

(** ** Operator splitting *)

Definition operator_splitting (data : Data)
    (func_transport func_collision : action) : Data * outcome unit :=
  (func_transport ;;;
   func_collision ;;;
   (λ d, (d, assert (all_nonneg (state d)))) ;;;
   (λ d, (set_t (t d + 1) d, Ok tt))) data.

(** ** Transport *)

(** In-place [r += x]: the right-hand side is fitted to the target. *)
Definition iadd_row (r x : row) : outcome row :=
  x' ← fit_row r x; Ok (zip_with Qplus r x').

Fixpoint iadd_rows (a b : array) : outcome array :=
  match a, b with
  | [], [] => Ok []
  | r :: a', x :: b' =>
      y ← iadd_row r x; rest ← iadd_rows a' b'; Ok (y :: rest)
  | _, _ => Raise ValueError
  end.

Definition transport_outflow_remains (data : Data) (affected_points : list Z)
    : outcome array :=
  c0 ← column0 (vG data);
  o0 ← item (velocity_offset data) 0;
  let outflow_percentage :=
    map (λ x, Qabs (x + o0) * dt data / dp data)%Q c0 in
  rows ← take (state data) affected_points;
  bcast_rows_l Qmult (map (λ o, 1 - o)%Q outflow_percentage) rows.

(** [data.vG + data.velocity_offset]. *)
Definition pv_of (data : Data) : outcome array :=
  mapM (λ r, bcast Qplus r (velocity_offset data)) (vG data).

(** [data.dt / data.dp * np.abs(pv[:, 0])]. *)
Definition inflow_percentage_of (data : Data) (pv : array) : outcome row :=
  c0 ← column0 pv;
  Ok (map (λ x, dt data / dp data * Qabs x)%Q c0).

(** The statement that occurs four times in the two inflow functions:
    [result[:, vels] = inflow_percentage[vels]
                       * data.state[np.ix_(affected_points + shift, vels)]]. *)
Definition inflow_from (data : Data) (inflow_percentage : row)
    (affected_points : list Z) (shift : Z) (vels : list Z) (result : array)
    : outcome array :=
  pct ← take inflow_percentage vels;
  sub ← ix_ (state data) (map (λ p, p + shift) affected_points) vels;
  vals ← bcast_rows_l Qmult pct sub;
  set_columns result vels vals.

Definition transport_inflow_innerPoint (data : Data) (affected_points : list Z)
    : outcome array :=
  pv ← pv_of data;
  inflow_percentage ← inflow_percentage_of data pv;
  let result := zeros (length affected_points) (length (vG data)) in
  c0 ← column0 pv;
  let neg_vels := where_ (λ x, Qltb x 0) c0 in
  result ← inflow_from data inflow_percentage affected_points 1 neg_vels result;
  c0 ← column0 pv;
  let pos_vels := where_ (λ x, Qltb 0 x) c0 in
  result ← inflow_from data inflow_percentage affected_points (-1) pos_vels result;
  Ok result.



(** Run a computation of a new result buffer and store it. *)
Definition write_result (data : Data) (m : outcome array) : Data * outcome unit :=
  match m with
  | Ok r => (set_result r data, Ok tt)
  | Raise e => (data, Raise e)
  end.

Definition transport_fdm_inner (data : Data) (affected_points : list Z)
    : Data * outcome unit :=
  if bool_decide (p_dim data ≠ 1) then (data, Raise NotImplementedError)
  else
    ((λ data, write_result data
        (out ← transport_outflow_remains data affected_points;
         set_rows (result data) affected_points out)) ;;;
     (λ data, write_result data
        (cur ← take (result data) affected_points;
         inflow ← transport_inflow_innerPoint data affected_points;
         sum ← iadd_rows cur inflow;
         set_rows (result data) affected_points sum))) data.

Definition no_transport (data : Data) (affected_points : list Z)
    : Data * outcome unit :=
  (data, Ok tt).

(** ** Collisions *)

(** [data.col[:, j]]. *)
Definition col_column (c : list (list Z)) (j : Z) : outcome (list Z) :=
  mapM (λ q, item q j) c.

(** [m.dot(v)] for a matrix [m] and a vector [v]. *)
Definition dot (m : array) (v : row) : outcome row :=
  mapM (λ r, if bool_decide (length r = length v)
             then Ok (foldr Qplus 0%Q (zip_with Qmult r v))
             else Raise ValueError) m.

(** [np.multiply(u_c0, u_c2) - np.multiply(u_c1, u_c3)]. *)
Definition col_factor_of (u_c0 u_c1 u_c2 u_c3 : row) : row :=
  zip_with Qminus (zip_with Qmult u_c0 u_c2) (zip_with Qmult u_c1 u_c3).

(** The body of the loop of [euler_scheme], as a function of the row
    [data.state[p]]: the new contents of that row. *)
Definition euler_row (data : Data) (sp : row) : outcome row :=
  i0 ← col_column (col data) 0; u_c0 ← take sp i0;
  i1 ← col_column (col data) 1; u_c1 ← take sp i1;
  i2 ← col_column (col data) 2; u_c2 ← take sp i2;
  i3 ← col_column (col data) 3; u_c3 ← take sp i3;
  let col_factor := col_factor_of u_c0 u_c1 u_c2 u_c3 in
  inc ← dot (col_mat data) col_factor;
  iadd_row sp inc.

Definition euler_point (data : Data) (p : Z) : Data * outcome unit :=
  match (k ← norm_index (length (state data)) p;
         sp ← item (state data) p;
         new ← euler_row data sp;
         Ok (<[k := new]> (state data))) with
  | Ok s => (set_state s data, Ok tt)
  | Raise e => (data, Raise e)
  end.

Fixpoint euler_scheme (data : Data) (affected_points : list Z)
    : Data * outcome unit :=
  match affected_points with
  | [] => (data, Ok tt)
  | p :: ps =>
      match euler_point data p with
      | (data', Ok _) => euler_scheme data' ps
      | (data', Raise e) => (data', Raise e)
      end
  end.

Definition no_collisions (data : Data) (affected_points : list Z)
    : Data * outcome unit :=
  (data, Ok tt).

(** ** Rules *)

Module Rule.

(** Modelled from the spec: the [Rule] class and its subclasses live in
    [boltzpy/rule.py], which is not part of the sources at hand.  A rule
    object carries its point set, its initial state and its methods
    [transport], [collision] and [check_integrity]; the methods are closed
    over the rule's own attributes, as bound methods are. *)
Record t : Type := mk {
  affected_points : list Z;
  initial_state : row;
  transport : action;
  collision : action;
  check_integrity : bool → outcome unit   (* argument: complete_check *)
}.

End Rule.

(** Modelled from the spec: [InnerPointRule] transports with the
    finite-difference scheme and collides with the Euler scheme;
    [ConstantPointRule] does neither. *)
Definition InnerPointRule (affected_points : list Z) (initial_state : row)
    (check : bool → outcome unit) : Rule.t :=
  Rule.mk affected_points initial_state
          (λ data, transport_fdm_inner data affected_points)
          (λ data, euler_scheme data affected_points)
          check.

Definition ConstantPointRule (affected_points : list Z) (initial_state : row)
    (check : bool → outcome unit) : Rule.t :=
  Rule.mk affected_points initial_state
          (λ data, no_transport data affected_points)
          (λ data, no_collisions data affected_points)
          check.

(** ** Geometry *)

(** [dst[...] = src[...]]: [src] is broadcast to the shape of [dst]. *)
Fixpoint fit_rows (dst src : array) : outcome array :=
  match dst, src with
  | [], [] => Ok []
  | old :: dst', new :: src' =>
      r ← fit_row old new; rest ← fit_rows dst' src'; Ok (r :: rest)
  | _, _ => Raise ValueError
  end.

Definition copy_into (dst src : array) : outcome array :=
  if bool_decide (length src = length dst) then fit_rows dst src
  else match src with
       | [r] => mapM (λ old, fit_row old r) dst
       | _ => Raise ValueError
       end.

(** [for x in xs: body(x)(data)]. *)
Fixpoint for_each {A} (xs : list A) (body : A → action) : action :=
  match xs with
  | [] => skip
  | x :: xs' => (body x ;;; for_each xs' body)
  end.

(** [for x in xs: s = body(s, x)], the first exception ending the loop. *)
Fixpoint fold_outcome {A S} (body : S → A → outcome S) (s : S) (xs : list A)
    : outcome S :=
  match xs with
  | [] => Ok s
  | x :: xs' => s' ← body s x; fold_outcome body s' xs'
  end.

(** [a[p, :] = v] for an integer [p]. *)
Definition store_row (a : array) (p : Z) (v : row) : outcome array :=
  k ← norm_index (length a) p;
  match a !! k with
  | Some old => v' ← fit_row old v; Ok (<[k := v']> a)
  | None => Raise IndexError
  end.

(** An int array all of whose writes fill a whole slot of its first axis: the
    value in each slot, and the shape of a slot.  [Scalar] is the array of
    shape [()]. *)
Inductive int_grid : Type :=
  | Scalar (v : Z)
  | Slots (vals : list Z) (inner : list Z).

(** [np.full(shape, v, dtype=int)]. *)
Definition full (shape : list Z) (v : Z) : outcome int_grid :=
  if negb (forallb (λ x, bool_decide (0 ≤ x)) shape) then Raise ValueError
  else match shape with
       | [] => Ok (Scalar v)
       | s0 :: inner => Ok (Slots (replicate (Z.to_nat s0) v) inner)
       end.

(** [a[i] = v] for an integer [i]. *)
Definition fill_slot (a : int_grid) (i v : Z) : outcome int_grid :=
  match a with
  | Scalar _ => Raise IndexError
  | Slots vals inner =>
      k ← norm_index (length vals) i; Ok (Slots (<[k := v]> vals) inner)
  end.

(** [len(l) == len(set(l))]. *)
Definition all_distinct (l : list Z) : bool :=
  bool_decide (length l = size (list_to_set l : gset Z)).

Module Geometry.

Record t : Type := mk {
  shape : option (list Z);
  rules : list Rule.t
}.

Definition ndim (self : t) : option Z :=
  match shape self with
  | None => None
  | Some s => Some (Z.of_nat (length s))
  end.

(** [np.prod(self.shape)]. *)
Definition size (self : t) : option Z :=
  match shape self with
  | Some s => Some (foldr Z.mul 1 s)
  | None => None
  end.

(** The list built by the loop [for rule in rules: result += ...]. *)
Definition collect (rs : list Rule.t) : list Z :=
  concat (map Rule.affected_points rs).

Definition affected_points (self : t) : outcome (list Z) :=
  let result := collect (rules self) in
  assert (all_distinct result);;
  Ok result.

Definition unaffected_points (self : t) : outcome (gset Z) :=
  sz ← match size self with
       | Some z => Ok z
       | None => Raise TypeError       (* int(None) *)
       end;
  let possible_points : gset Z := list_to_set (seqZ 0 sz) in
  l ← affected_points self;
  let affected : gset Z := list_to_set l in
  Ok (possible_points ∖ affected).

(** [len(set(sizes_of_model)) in [0, 1]]. *)
Definition one_model (rs : list Rule.t) : bool :=
  let sizes_of_model := map (λ r, length (Rule.initial_state r)) rs in
  bool_decide (base.size (list_to_set sizes_of_model : gset nat) ≤ 1)%nat.

(** [SUPP_GRID_DIMENSIONS] of [boltzpy/constants.py]. *)
Definition SUPP_GRID_DIMENSIONS : list Z := [1; 2].

(** The checks on types ([isinstance], [dtype]) hold by the types of the
    embedding; [context] is [None] in every call in [geometry.py]. *)
Definition check_parameters (ndim : option Z) (shape : option (list Z))
    (rules : option (list Rule.t)) (complete_check : bool) : outcome unit :=
  (if complete_check
   then assert (bool_decide (is_Some ndim) && bool_decide (is_Some shape)
                && bool_decide (is_Some rules))
   else Ok tt);;
  match ndim with
  | Some nd => assert (bool_decide (nd ∈ SUPP_GRID_DIMENSIONS))
  | None => Ok tt
  end;;
  match shape with
  | Some s => assert (forallb (λ x, bool_decide (1 ≤ x)) s)
  | None => Ok tt
  end;;
  match rules with
  | Some rs =>
      mapM (λ r, Rule.check_integrity r complete_check) rs;;
      let affected_points := collect rs in
      assert (all_distinct affected_points);;
      (if complete_check
       then match shape with
            | Some s => assert (bool_decide
                          (Z.of_nat (length affected_points) = foldr Z.mul 1 s))
            | None => Raise TypeError
            end
       else Ok tt);;
      assert (one_model rs)
  | None => Ok tt
  end;;
  match ndim, shape with
  | Some nd, Some s => assert (bool_decide (Z.of_nat (length s) = nd))
  | _, _ => Ok tt
  end.

Definition check_integrity (self : t) (complete_check : bool) : outcome unit :=
  check_parameters (ndim self) (shape self) (Some (rules self)) complete_check.

Definition add_rule (self : t) (new_rule : Rule.t) : t * outcome unit :=
  match unaffected ← unaffected_points self;
        assert (bool_decide
          (list_to_set (Rule.affected_points new_rule) ⊆@{gset Z} unaffected))
  with
  | Raise e => (self, Raise e)
  | Ok _ =>
      let self' := mk (shape self) (rules self ++ [new_rule]) in
      (self', check_integrity self' false)
  end.

Definition is_set_up (self : t) : outcome bool :=
  match shape self with
  | None => Ok false
  | Some _ =>
      unaffected ← unaffected_points self;
      if bool_decide (base.size unaffected ≠ 0%nat) then Ok false
      else check_integrity self true;; Ok true
  end.

Definition collision (self : t) (data : Data) : Data * outcome unit :=
  for_each (rules self) Rule.collision data.

Definition transport (self : t) (data : Data) : Data * outcome unit :=
  (for_each (rules self) Rule.transport ;;;
   (λ data, match copy_into (state data) (result data) with
            | Ok s => (set_state s data, Ok tt)
            | Raise e => (data, Raise e)
            end)) data.

(** [Geometry(shape, rules)], with [shape] given as an int array. *)
Definition __init__ (shape : option (list Z)) (rules : option (list Rule.t))
    : outcome t :=
  check_parameters None shape rules false;;
  Ok (mk shape (match rules with Some rs => rs | None => [] end)).

Definition size_of_model (self : t) : outcome nat :=
  let sizes := map (λ r, length (Rule.initial_state r)) (rules self) in
  assert (bool_decide (base.size (list_to_set sizes : gset nat) = 1%nat));;
  match sizes with
  | m :: _ => Ok m
  | [] => Raise IndexError
  end.

Definition init_array (self : t) : outcome int_grid :=
  init_arr ← match shape self with
             | Some s => full s (-1)
             | None => Raise TypeError
             end;
  fold_outcome
    (λ init_arr '(idx_r, r),
       fold_outcome (λ init_arr idx_p, fill_slot init_arr idx_p (Z.of_nat idx_r))
                    init_arr (Rule.affected_points r))
    init_arr (imap pair (rules self)).

Definition initial_state (self : t) : outcome (option array) :=
  up ← is_set_up self;
  if negb up then Ok None
  else
    sz ← match size self with
         | Some z => Ok z
         | None => Raise TypeError
         end;
    m ← size_of_model self;
    (if bool_decide (sz < 0) then Raise ValueError else Ok tt);;
    let state := zeros (Z.to_nat sz) m in
    state ← fold_outcome
              (λ state rule,
                 fold_outcome
                   (λ state p, store_row state p (Rule.initial_state rule))
                   state (Rule.affected_points rule))
              state (rules self);
    Ok (Some state).

End Geometry.

(** ** Object identity *)

(** [Grid.py] compares with [is].  Whether two equal numbers or strings are
    one object depends on the interpreter (caching of small ints, interning of
    literals); what every interpreter guarantees is that one object has one
    value. *)
Class Identity : Type := {
  is_int : Z → Z → bool;
  is_float : Q → Q → bool;
  is_str : string → string → bool;
  is_int_eq a b : is_int a b = true → a = b;
  is_float_eq a b : is_float a b = true → (a == b)%Q;
  is_str_eq a b : is_str a b = true → a = b
}.

(** ** Grid *)

Module Grid.

(** [fType] is [float] throughout; the checks on it hold by typing. *)
Record t : Type := mk {
  dim : Z;
  boundaries : list (Q * Q);   (* three rows [min, max] *)
  d : Q;
  n : Z;
  shape : string
}.

Definition GRID_SHAPES : list string := ["rectangular"%string].

(** [Grid()]. *)
Definition __init__ : t :=
  mk 0 [(0, 0); (0, 0); (0, 0)]%Q 0%Q 0 "NOT INITIALIZED".

(** [np.array_equal(b, np.zeros((3, 2)))]. *)
Definition is_zeros (b : list (Q * Q)) : bool :=
  bool_decide (length b = 3%nat)
  && forallb (λ '(lo, hi), Qeq_bool lo 0 && Qeq_bool hi 0) b.

(** A step [d] of value zero that passes the identity test makes numpy
    divide by zero; it yields infinities, which the embedding does not
    have, so the computation stops with [FloatingPointError] there. *)
Definition __compute_n `{Identity} (self : t) : outcome Z :=
  assert (negb (is_float (d self) 0%Q));;
  assert (negb (is_zeros (boundaries self)));;
  if is_str (shape self) "rectangular" then
    if Qeq_bool (d self) 0 then Raise FloatingPointError
    else
      let _l := map (λ '(lo, hi), hi - lo)%Q (boundaries self) in
      let _n_dim := map (λ l, Qceiling (l / d self) + 1) _l in
      Ok (foldr Z.mul 1 _n_dim)
  else Raise AssertionError.

Definition check_integrity `{Identity} (self : t) : outcome unit :=
  assert (bool_decide (dim self ∈ [1; 2; 3]));;
  assert (bool_decide (length (boundaries self) = 3%nat));;
  assert (Qltb 0 (d self));;
  assert (bool_decide (2 ≤ n self));;
  assert (bool_decide (shape self ∈ GRID_SHAPES));;
  m ← __compute_n self;
  assert (is_int (n self) m).

(** The stop of the slice [0:k] on an axis of length [len]. *)
Definition slice_stop (len : nat) (k : Z) : nat :=
  if bool_decide (k < 0) then Z.to_nat (Z.max 0 (Z.of_nat len + k))
  else Z.to_nat (Z.min k (Z.of_nat len)).

(** [b[0:dim, :] = np.array(new)]: the rows given must be as many as the
    slice has, or one (an empty list is an array of shape [(0,)], which fits
    no slice of pairs). *)
Definition assign_rows (b : list (Q * Q)) (dim : Z) (new : list (Q * Q))
    : outcome (list (Q * Q)) :=
  let m := slice_stop (length b) dim in
  match new with
  | [] => Raise ValueError
  | [x] => Ok (replicate m x ++ drop m b)
  | _ => if bool_decide (length new = m) then Ok (new ++ drop m b)
         else Raise ValueError
  end.

Definition __initialize_without_n `{Identity} (self : t) (dim : Z)
    (boundaries : list (Q * Q)) (d : Q) (shape : string) : t * outcome unit :=
  let self := mk dim (Grid.boundaries self) (Grid.d self) (n self) (Grid.shape self) in
  match assign_rows (Grid.boundaries self) dim boundaries with
  | Raise e => (self, Raise e)
  | Ok b =>
      let self := mk dim b d (n self) shape in
      match __compute_n self with
      | Raise e => (self, Raise e)
      | Ok m => (mk dim b d m shape, Ok tt)
      end
  end.

Definition initialize `{Identity} (self : t) (dim : Z)
    (boundaries : option (list (Q * Q))) (d : option Q) (n : option Z)
    (shape : string) : t * outcome unit :=
  match boundaries, d, n with
  | Some b, Some d, None => __initialize_without_n self dim b d shape
  | _, _, _ => (self, Raise AssertionError)
  end.

End Grid.

(** ** Vocabulary of the statements *)

(** Some entry of a 2D array is negative. *)
Definition negative_entry (a : array) : Prop :=
  ∃ r x, r ∈ a ∧ x ∈ r ∧ (x < 0)%Q.

(** Points on one axis [[lo, hi]] of a grid with step [d]. *)
Definition axis_points (d : Q) (b : Q * Q) : Z :=
  Qceiling ((snd b - fst b) / d) + 1.

(** The count of a grid as its boundaries and step determine it. *)
Definition count_of (g : Grid.t) : Z :=
  foldr Z.mul 1 (map (axis_points (Grid.d g)) (Grid.boundaries g)).



(** [i] is a legal numpy index on an axis of length [n]. *)
Definition valid (n : nat) (i : Z) : Prop :=
  - Z.of_nat n ≤ i < Z.of_nat n.

(** The position a legal index addresses. *)
Definition pos_of (n : nat) (i : Z) : nat :=
  Z.to_nat (i mod Z.of_nat n).

(** [a[i]] and [a[p, v]] as total functions (a default outside the array). *)
Definition at_ {A} (dflt : A) (a : list A) (i : Z) : A :=
  nth (pos_of (length a) i) a dflt.

Definition entry (a : array) (p v : Z) : Q :=
  at_ 0%Q (at_ [] a p) v.

(** The arrays of a simulation state fit together: [state] and [result] are
    [P x V], the velocity grid has [V] rows, each as long as the offset,
    which has at least one component. *)
Record shapes (data : Data) (P V : nat) : Prop := mk_shapes {
  state_rows : length (state data) = P;
  state_cols : Forall (λ r, length r = V) (state data);
  result_rows : length (result data) = P;
  result_cols : Forall (λ r, length r = V) (result data);
  vG_rows : length (vG data) = V;
  vG_cols : Forall (λ r, length r = length (velocity_offset data)) (vG data);
  offset_dims : velocity_offset data ≠ []
}.

(** The effective velocity along the transport axis, [pv[v, 0]]. *)
Definition pv0 (data : Data) (v : Z) : Q :=
  (entry (vG data) v 0 + at_ 0 (velocity_offset data) 0)%Q.

(** [|pv[v, 0]| * dt / dp]. *)
Definition flow_fraction (data : Data) (v : Z) : Q :=
  (Qabs (pv0 data v) * dt data / dp data)%Q.

(** The array [pv = vG + velocity_offset] and its column [pv[:, 0]]. *)
Definition pv_array (data : Data) : array :=
  map (λ r, zip_with Qplus r (velocity_offset data)) (vG data).

Definition pv_column (data : Data) : row :=
  map (hd 0%Q) (pv_array data).

(** [dt / dp * |pv[v, 0]|], the factor the inflow functions use. *)
Definition inflow_fraction (data : Data) (v : Z) : Q :=
  (dt data / dp data * Qabs (pv0 data v))%Q.

(** The inflow into point [p] at velocity [v] from the upwind neighbour. *)
Definition inflow_value (data : Data) (p v : Z) : Q :=
  if Qltb 0 (pv0 data v)
  then (inflow_fraction data v * entry (state data) (p - 1) v)%Q
  else if Qltb (pv0 data v) 0
  then (inflow_fraction data v * entry (state data) (p + 1) v)%Q
  else 0%Q.

(** The collision data fit the state: every quadruple has four legal
    velocity indices, and [col_mat] is [V x (number of quadruples)]. *)
Record collision_shapes (data : Data) (V : nat) : Prop := mk_collision_shapes {
  col_quadruples : Forall (λ q, length q = 4%nat ∧ Forall (valid V) q) (col data);
  col_mat_rows : length (col_mat data) = V;
  col_mat_cols : Forall (λ r, length r = length (col data)) (col_mat data)
}.

(** The vector of factors [u[i0]*u[i2] - u[i1]*u[i3]], one per quadruple, for
    a state row [u]. *)
Definition collision_factor (data : Data) (u : row) : row :=
  map (λ q : list Z,
         (at_ 0 u (at_ 0%Z q 0%Z) * at_ 0 u (at_ 0%Z q 2%Z)
          - at_ 0 u (at_ 0%Z q 1%Z) * at_ 0 u (at_ 0%Z q 3%Z))%Q) (col data).

(** A matrix applied to a vector. *)
Definition apply_matrix (m : array) (x : row) : row :=
  map (λ r, foldr Qplus 0%Q (zip_with Qmult r x)) m.

(** One Euler step on a state row: [u + col_mat . factor(u)]. *)
Definition euler_update (data : Data) (u : row) : row :=
  zip_with Qplus u (apply_matrix (col_mat data) (collision_factor data u)).

(** How often the index list addresses position [k]. *)
Definition occurrences (n : nat) (idx : list Z) (k : nat) : nat :=
  length (List.filter (λ i, bool_decide (pos_of n i = k)) idx).

(** A procedure that, however it ends, leaves row [k] of the result buffer
    and row [k] of the state as they were. *)
Definition keeps_row (a : action) (k : nat) : Prop :=
  ∀ d0 d1 o, a d0 = (d1, o) →
    result d1 !! k = result d0 !! k ∧ state d1 !! k = state d0 !! k.

(** Some index of the list addresses position [k] of an axis of length [n]. *)
Definition addresses (n : nat) (idx : list Z) (k : nat) : Prop :=
  ∃ i, i ∈ idx ∧ valid n i ∧ pos_of n i = k.

(** ** Concrete interpreters and inputs *)

(** Identity in a CPython session: ints from -5 to 256 are cached,
    identifier-like string literals are interned, and no float handed to a
    grid is the very object of the constant [0.0] in [Grid.py]. *)
#[local] Instance cpython : Identity := {|
  is_int a b := (a =? b) && (-5 <=? a) && (a <=? 256);
  is_float _ _ := false;
  is_str := String.eqb;
  is_int_eq a b H :=
    proj1 (Z.eqb_eq a b)
      (proj1 (andb_prop _ _ (proj1 (andb_prop _ _ H))));
  is_float_eq a b H := False_ind _ (diff_false_true H);
  is_str_eq a b := proj1 (String.eqb_eq a b)
|}.

(** The grid of the three-point scenario: boundaries [[0, 1]], step 1/2. *)
Definition grid3 : Grid.t :=
  Grid.mk 1 [(0, 1); (0, 0); (0, 0)]%Q (1 # 2) 3 "rectangular".


(** A three-point geometry: constant points at both ends, one inner point. *)
Definition no_check : bool → outcome unit := λ _, Ok tt.

Definition left_end : Rule.t := ConstantPointRule [0] [1; 1]%Q no_check.
Definition middle : Rule.t := InnerPointRule [1] [1; 1]%Q no_check.
Definition right_end : Rule.t := ConstantPointRule [2] [1; 1]%Q no_check.

Definition geometry3 : Geometry.t :=
  Geometry.mk (Some [3]) [left_end; middle; right_end].

(** The same geometry before its last rule is added. *)
Definition geometry2 : Geometry.t :=
  Geometry.mk (Some [3]) [left_end; middle].

(** A rule that claims the inner point a second time. *)
Definition overlapping : Rule.t := ConstantPointRule [1; 2] [1; 1]%Q no_check.

(** A state with a negative entry, and two stages that leave it alone. *)
Definition data_negative : Data :=
  mkData [[1; 0]; [-1; 0]]%Q [0; 0]%Q (1 # 2) 1 1 [] [[]; []]
         [[1; 2]; [-3; 4]; [5; 6]]%Q [[1; 2]; [-3; 4]; [5; 6]]%Q 7.

(** Three points, two velocities (one to the right, one to the left). *)
Definition data3 : Data :=
  mkData [[1; 0]; [-1; 0]]%Q [0; 0]%Q (1 # 2) 1 1
         [[0; 1; 0; 1]] [[1 # 100]; [-1 # 100]]%Q
         [[1; 2]; [3; 4]; [5; 6]]%Q [[1; 2]; [3; 4]; [5; 6]]%Q 0.

(** The state of [data3] with a freshly zeroed result buffer. *)
Definition data3_fresh : Data :=
  mkData [[1; 0]; [-1; 0]]%Q [0; 0]%Q (1 # 2) 1 1
         [[0; 1; 0; 1]] [[1 # 100]; [-1 # 100]]%Q
         [[1; 2]; [3; 4]; [5; 6]]%Q (zeros 3 2) 0.

(** ** Further vocabulary *)

(** [n] successive time steps on a geometry; the first exception ends the
    run. *)
Fixpoint run_steps (g : Geometry.t) (n : nat) (data : Data) : Data * outcome unit :=
  match n with
  | O => (data, Ok tt)
  | S n' =>
      match operator_splitting data (Geometry.transport g) (Geometry.collision g) with
      | (data', Ok _) => run_steps g n' data'
      | (data', Raise e) => (data', Raise e)
      end
  end.

(** The writes of [Geometry.initial_state] in the order of its two loops:
    each point with the initial state of its rule. *)
Definition initial_writes (rs : list Rule.t) : list (Z * row) :=
  concat (map (λ r, map (λ p, (p, Rule.initial_state r)) (Rule.affected_points r)) rs).

(** A geometry over three axes, and a rule for its first point. *)
Definition geometry_3d : Geometry.t := Geometry.mk (Some [2; 2; 2]) [].

Definition corner : Rule.t := ConstantPointRule [0] [1; 1]%Q no_check.

(** The writes of [Geometry.init_array] in the order of its two loops: each
    point with the position of its rule. *)
Definition owner_writes (irs : list (nat * Rule.t)) : list (Z * Z) :=
  concat (map (λ ir, map (λ p, (p, Z.of_nat ir.1)) (Rule.affected_points ir.2)) irs).

(** A set-up geometry of shape [2 x 2], one rule for all four points. *)
Definition geometry_2x2 : Geometry.t :=
  Geometry.mk (Some [2; 2]) [ConstantPointRule [0; 1; 2; 3] [1; 1]%Q no_check].

(** ** The loop form of the transport *)

(** [a[p, v]] for two integers. *)
Definition entry_at (a : array) (p v : Z) : outcome Q :=
  r ← item a p; item r v.

(** [a[p, v] = x] for two integers. *)
Definition store_entry (a : array) (p v : Z) (x : Q) : outcome array :=
  k ← norm_index (length a) p;
  match a !! k with
  | Some r => c ← norm_index (length r) v; Ok (<[k := <[c := x]> r]> a)
  | None => Raise IndexError
  end.

(** The body of the two loops of [fdm_first_order].  The third branch
    ([continue]) is taken by no rational [pv[0]]. *)
Definition fdm_point (p v : Z) : action := λ data,
  match (vrow ← item (vG data) v;
         pv ← bcast Qplus vrow (velocity_offset data);
         pv_0 ← item pv 0;
         if Qle_bool pv_0 0 then
           s ← entry_at (state data) p v;
           s1 ← entry_at (state data) (p + 1) v;
           let new_val := ((1 + pv_0 * dt data / dp data) * s
                           - pv_0 * dt data / dp data * s1)%Q in
           store_entry (result data) p v new_val
         else if Qltb 0 pv_0 then
           s ← entry_at (state data) p v;
           s1 ← entry_at (state data) (p - 1) v;
           let new_val := ((1 - pv_0 * dt data / dp data) * s
                           + pv_0 * dt data / dp data * s1)%Q in
           store_entry (result data) p v new_val
         else Ok (result data)) with
  | Ok r => (set_result r data, Ok tt)
  | Raise e => (data, Raise e)
  end.

(** [v_range[-1, 1]]. *)
Definition last_velocity (v_range : list (list Z)) : outcome Z :=
  last_row ← item v_range (-1); item last_row 1.

(** [Data] as modelled has no attribute [v_range]; the array is passed
    along, and [v_size = data.v_range[-1, 1]] is read from it. *)
Definition fdm_first_order (data : Data) (v_range : list (list Z))
    (affected_points : list Z) : Data * outcome unit :=
  if bool_decide (p_dim data ≠ 1) then (data, Raise NotImplementedError)
  else
    match last_velocity v_range with
    | Raise e => (data, Raise e)
    | Ok v_size =>
        for_each affected_points
          (λ p, for_each (seqZ 0 v_size) (λ v, fdm_point p v)) data
    end.

(** The value [fdm_first_order] stores at [p, v]. *)
Definition fdm_value (data : Data) (p v : Z) : Q :=
  if Qle_bool (pv0 data v) 0
  then ((1 + pv0 data v * dt data / dp data) * entry (state data) p v
        - pv0 data v * dt data / dp data * entry (state data) (p + 1) v)%Q
  else ((1 - pv0 data v * dt data / dp data) * entry (state data) p v
        + pv0 data v * dt data / dp data * entry (state data) (p - 1) v)%Q.

(** * Properties *)

(** ** Outcomes and actions *)

Lemma bind_Ok {A B} (m : outcome A) (f : A → outcome B) b :
  m ≫= f = Ok b ↔ ∃ a, m = Ok a ∧ f a = Ok b.
Proof.
  destruct m as [a|e]; simpl; split.
  - intros Hf. exists a. done.
  - intros (a' & [= <-] & Hf). done.
  - intros [=].
  - intros (a' & [=] & _).
Qed.

Lemma assert_Ok c u : assert c = Ok u ↔ c = true.
Proof. destruct c, u; simpl; split; (done || intros [=]). Qed.

Lemma assert_Raise c e : assert c = Raise e → c = false ∧ e = AssertionError.
Proof. destruct c; simpl; intros [=]; done. Qed.

Lemma bind_assert_Ok {B} c (f : unit → outcome B) b :
  assert c ≫= f = Ok b ↔ c = true ∧ f tt = Ok b.
Proof. destruct c; simpl; split; try done; [by intros [_ ?] | by intros [? _]]. Qed.

Lemma bind_unit_Ok {A B} (m : outcome A) (k : outcome B) b :
  m ≫= (λ _, k) = Ok b ↔ (∃ a, m = Ok a) ∧ k = Ok b.
Proof.
  destruct m as [a|e]; simpl; split; try done.
  - intros Hk. split; [by exists a | done].
  - by intros [_ ?].
  - by intros [[a [=]] _].
Qed.

(** ** The end-of-step check *)

Lemma all_nonneg_row_true (r : row) :
  forallb (Qle_bool 0) r = true ↔ ∀ x, x ∈ r → (0 <= x)%Q.
Proof.
  induction r as [|y r IH]; simpl.
  - split; [intros _ x Hx; inversion Hx | done].
  - rewrite andb_true_iff, IH, Qle_bool_iff. split.
    + intros [Hy Hr] x Hx. apply elem_of_cons in Hx as [-> | Hx]; auto.
    + intros Hall. split; [apply Hall; left | intros x Hx; apply Hall; by right].
Qed.

Lemma all_nonneg_true (a : array) :
  all_nonneg a = true ↔ ∀ r x, r ∈ a → x ∈ r → (0 <= x)%Q.
Proof.
  unfold all_nonneg. induction a as [|s a IH]; simpl.
  - split; [intros _ r x Hr; inversion Hr | done].
  - rewrite andb_true_iff, IH, all_nonneg_row_true. split.
    + intros [Hs Ha] r x Hr Hx. apply elem_of_cons in Hr as [-> | Hr]; eauto.
    + intros Hall. split; [intros x; apply Hall; left |].
      intros r x Hr. apply Hall. by right.
Qed.

Lemma all_nonneg_row_false (r : row) :
  forallb (Qle_bool 0) r = false ↔ ∃ x, x ∈ r ∧ (x < 0)%Q.
Proof.
  induction r as [|y r IH]; simpl.
  - split; [done | intros (x & Hx & _); inversion Hx].
  - rewrite andb_false_iff, IH. split.
    + intros [Hy | (x & Hx & Hneg)].
      * exists y. split; [left |]. apply Qnot_le_lt. intros Hle.
        apply Qle_bool_iff in Hle. congruence.
      * exists x. split; [by right | done].
    + intros (x & Hx & Hneg). apply elem_of_cons in Hx as [-> | Hx].
      * left. apply not_true_is_false. intros Hle. apply Qle_bool_iff in Hle.
        by apply Qlt_not_le in Hneg.
      * right. eauto.
Qed.

Lemma all_nonneg_false (a : array) :
  all_nonneg a = false ↔ negative_entry a.
Proof.
  unfold all_nonneg, negative_entry. induction a as [|s a IH]; simpl.
  - split; [done | intros (r & x & Hr & _); inversion Hr].
  - rewrite andb_false_iff, IH, all_nonneg_row_false. split.
    + intros [(x & Hx & Hneg) | (r & x & Hr & Hx & Hneg)].
      * exists s, x. split; [left | done].
      * exists r, x. split; [by right | done].
    + intros (r & x & Hr & Hx & Hneg). apply elem_of_cons in Hr as [-> | Hr].
      * left. eauto.
      * right. eauto.
Qed.

Lemma operator_splitting_eq data func_transport func_collision :
  operator_splitting data func_transport func_collision =
    match func_transport data with
    | (d1, Raise e) => (d1, Raise e)
    | (d1, Ok _) =>
        match func_collision d1 with
        | (d2, Raise e) => (d2, Raise e)
        | (d2, Ok _) =>
            if all_nonneg (state d2)
            then (set_t (t d2 + 1) d2, Ok tt)
            else (d2, Raise AssertionError)
        end
    end.
Proof.
  unfold operator_splitting, seq_action.
  destruct (func_transport data) as [d1 [[]|e1]]; [|done].
  destruct (func_collision d1) as [d2 [[]|e2]]; [|done].
  unfold assert. by destruct (all_nonneg (state d2)).
Qed.

(** C1: a call of [operator_splitting] returns normally, leaving [d'], exactly
    when the transport stage, called on the state the step was given, returned
    normally leaving some [d1]; the collision stage, called on [d1], returned
    normally leaving some [d2]; every entry of [state] in [d2] is [>= 0]; and
    [d'] is [d2] with [t] replaced by [t + 1].  So the stages run in the order
    transport, collision, check, increment, each once, and [t] grows by
    exactly 1. *)
Theorem operator_splitting_order data func_transport func_collision d' :
  operator_splitting data func_transport func_collision = (d', Ok tt) ↔
  ∃ d1 d2,
    func_transport data = (d1, Ok tt)
    ∧ func_collision d1 = (d2, Ok tt)
    ∧ (∀ r x, r ∈ state d2 → x ∈ r → (0 <= x)%Q)
    ∧ d' = set_t (t d2 + 1) d2
    ∧ t d' = t d2 + 1
    ∧ state d' = state d2
    ∧ (t d1 = t data → t d2 = t d1 → t d' = t data + 1).
Proof.
  rewrite operator_splitting_eq. split.
  - destruct (func_transport data) as [d1 [[]|e1]] eqn:Ht; [|intros [=]].
    destruct (func_collision d1) as [d2 [[]|e2]] eqn:Hc; [|intros [=]].
    destruct (all_nonneg (state d2)) eqn:Hall; [|intros [=]].
    intros [= <-]. exists d1, d2. rewrite all_nonneg_true in Hall.
    split_and!; try done. cbn [t set_t]. lia.
  - intros (d1 & d2 & -> & -> & Hall & -> & _).
    apply all_nonneg_true in Hall. by rewrite Hall.
Qed.

(** One full step of the three-point example: transport and collision as the
    geometry dispatches them. *)
Example operator_splitting_step_example :
  let step := operator_splitting data3 (Geometry.transport geometry3)
                                       (Geometry.collision geometry3) in
  snd step = Ok tt ∧ t (fst step) = 1
  ∧ state (fst step) !! 0%nat = Some [1; 2]%Q
  ∧ state (fst step) !! 2%nat = Some [5; 6]%Q.
Proof. vm_compute. split_and!; reflexivity. Qed.

(** C4: when both stages have returned, the step has two ways to end.  With
    a negative entry in [state] it raises [AssertionError] and hands back the
    object exactly as the collision stage left it: [t] is not incremented and
    nothing the stages wrote is undone.  Without one it returns normally and
    [t] is one larger. *)
Theorem operator_splitting_atomic data func_transport func_collision d1 d2 :
  func_transport data = (d1, Ok tt) →
  func_collision d1 = (d2, Ok tt) →
  let step := operator_splitting data func_transport func_collision in
  (negative_entry (state d2) →
     step = (d2, Raise AssertionError) ∧ t (fst step) = t d2
     ∧ state (fst step) = state d2 ∧ result (fst step) = result d2)
  ∧ (¬ negative_entry (state d2) →
     step = (set_t (t d2 + 1) d2, Ok tt) ∧ t (fst step) = t d2 + 1)
  ∧ (step = (set_t (t d2 + 1) d2, Ok tt) ∨ step = (d2, Raise AssertionError)).
Proof.
  intros Ht Hc step. subst step.
  rewrite operator_splitting_eq, Ht, Hc.
  destruct (all_nonneg (state d2)) eqn:Hall.
  - split; [|split; [done | by left]].
    intros Hneg. apply all_nonneg_false in Hneg. congruence.
  - split; [done | split; [| by right]].
    intros Hno. apply all_nonneg_false in Hall. done.
Qed.

Lemma operator_splitting_atomic_witness :
  operator_splitting data_negative
    (λ d, no_transport d [0; 1; 2]) (λ d, no_collisions d [0; 1; 2])
  = (data_negative, Raise AssertionError).
Proof.
  apply (operator_splitting_atomic data_negative
           (λ d, no_transport d [0; 1; 2]) (λ d, no_collisions d [0; 1; 2])
           data_negative data_negative eq_refl eq_refl).
  exists [-3; 4]%Q, (-3)%Q. split_and!.
  - apply list_elem_of_In. simpl. tauto.
  - apply list_elem_of_In. simpl. tauto.
  - reflexivity.
Defined.

(** ** Grid *)

Section GridProperties.
Context `{Identity}.

Lemma compute_n_Ok g m :
  Grid.__compute_n g = Ok m →
  is_str (Grid.shape g) "rectangular" = true ∧ m = count_of g.
Proof.
  unfold Grid.__compute_n. intros Hm.
  apply bind_unit_Ok in Hm as (_ & Hm).
  apply bind_unit_Ok in Hm as (_ & Hm).
  destruct (is_str (Grid.shape g) "rectangular"); [|done].
  destruct (Qeq_bool (Grid.d g) 0); [done|].
  injection Hm as <-. split; [done|].
  unfold count_of. f_equal. rewrite map_map. apply map_ext. by intros [lo hi].
Qed.




End GridProperties.

Section GridClaims.
Context `{Identity}.



End GridClaims.




(** ** Geometry *)

Lemma size_list_to_set_le (l : list Z) :
  (size (list_to_set l : gset Z) ≤ length l)%nat.
Proof.
  induction l as [|x l IH].
  - rewrite list_to_set_nil, size_empty. simpl. lia.
  - rewrite list_to_set_cons, size_union_alt, size_singleton. simpl.
    assert (size (list_to_set l ∖ {[x]} : gset Z)
            ≤ size (list_to_set l : gset Z))%nat
      by (apply subseteq_size; set_solver).
    lia.
Qed.

Lemma all_distinct_NoDup (l : list Z) : all_distinct l = true ↔ NoDup l.
Proof.
  unfold all_distinct. rewrite bool_decide_eq_true. split.
  - induction l as [|x l IH]; intros Hlen; [constructor|].
    rewrite list_to_set_cons in Hlen. simpl in Hlen.
    pose proof (size_list_to_set_le l) as Hle.
    destruct (decide (x ∈ l)) as [Hin | Hnin].
    + assert ({[x]} ∪ list_to_set l = (list_to_set l : gset Z)) as Heq
        by set_solver.
      rewrite Heq in Hlen. lia.
    + rewrite size_union, size_singleton in Hlen by set_solver.
      constructor; [done | apply IH; lia].
  - intros Hnd. by rewrite size_list_to_set.
Qed.

Lemma elem_of_collect (rs : list Rule.t) (p : Z) :
  p ∈ Geometry.collect rs ↔ ∃ r, r ∈ rs ∧ p ∈ Rule.affected_points r.
Proof.
  unfold Geometry.collect. induction rs as [|r rs IH]; simpl.
  - split; [intros Hp; inversion Hp | intros (r & Hr & _); inversion Hr].
  - rewrite elem_of_app, IH. split.
    + intros [Hp | (r' & Hr' & Hp)].
      * exists r. split; [left | done].
      * exists r'. split; [by right | done].
    + intros (r' & Hr' & Hp). apply elem_of_cons in Hr' as [-> | Hr'].
      * by left.
      * right. eauto.
Qed.

Lemma collect_app (rs rs' : list Rule.t) :
  Geometry.collect (rs ++ rs') = Geometry.collect rs ++ Geometry.collect rs'.
Proof. unfold Geometry.collect. by rewrite map_app, concat_app. Qed.

(** Distinct rules of a duplicate-free collection share no point. *)
Lemma collect_NoDup_owner (rs : list Rule.t) i j r1 r2 p :
  NoDup (Geometry.collect rs) →
  rs !! i = Some r1 → rs !! j = Some r2 →
  p ∈ Rule.affected_points r1 → p ∈ Rule.affected_points r2 →
  i = j.
Proof.
  revert i j. induction rs as [|r rs IH]; intros i j Hnd Hi Hj Hp1 Hp2.
  - by rewrite lookup_nil in Hi.
  - change (Geometry.collect (r :: rs))
      with (Rule.affected_points r ++ Geometry.collect rs) in Hnd.
    apply NoDup_app in Hnd as (_ & Hdisj & Hnd).
    destruct i as [|i], j as [|j]; simpl in Hi, Hj.
    + done.
    + injection Hi as ->. exfalso. apply (Hdisj p Hp1).
      apply elem_of_collect. exists r2. split; [|done].
      by eapply list_elem_of_lookup_2.
    + injection Hj as ->. exfalso. apply (Hdisj p Hp2).
      apply elem_of_collect. exists r1. split; [|done].
      by eapply list_elem_of_lookup_2.
    + f_equal. by eapply IH.
Qed.

Lemma unaffected_points_Ok (g : Geometry.t) (U : gset Z) :
  Geometry.unaffected_points g = Ok U ↔
  ∃ sz, Geometry.size g = Some sz
        ∧ NoDup (Geometry.collect (Geometry.rules g))
        ∧ U = list_to_set (seqZ 0 sz) ∖ list_to_set (Geometry.collect (Geometry.rules g)).
Proof.
  unfold Geometry.unaffected_points, Geometry.affected_points.
  destruct (Geometry.size g) as [sz|]; simpl.
  - destruct (all_distinct _) eqn:Hd; simpl.
    + apply all_distinct_NoDup in Hd. split.
      * intros [= <-]. by exists sz.
      * intros (sz' & [= <-] & _ & ->). done.
    + split; [done|]. intros (sz' & _ & Hnd & _).
      apply all_distinct_NoDup in Hnd. congruence.
  - split; [done|]. by intros (sz' & [=] & _).
Qed.

Lemma check_parameters_complete (g : Geometry.t) :
  Geometry.check_integrity g true = Ok tt →
  ∃ s, Geometry.shape g = Some s
       ∧ Z.of_nat (length (Geometry.collect (Geometry.rules g))) = foldr Z.mul 1 s
       ∧ NoDup (Geometry.collect (Geometry.rules g)).
Proof.
  unfold Geometry.check_integrity, Geometry.check_parameters, Geometry.ndim.
  destruct (Geometry.shape g) as [s|]; [|done].
  intros Hok. exists s. split; [done|].
  apply bind_unit_Ok in Hok as (_ & Hok).
  apply bind_unit_Ok in Hok as (_ & Hok).
  apply bind_unit_Ok in Hok as (_ & Hok).
  apply bind_unit_Ok in Hok as ([[] Hok] & _).
  apply bind_unit_Ok in Hok as (_ & Hok).
  apply bind_assert_Ok in Hok as [Hd Hok].
  apply bind_assert_Ok in Hok as [Hlen _].
  apply bool_decide_eq_true in Hlen. apply all_distinct_NoDup in Hd. done.
Qed.

(** C7: when [is_set_up] returns [True], the points collected from all rules
    are, up to order, exactly [0, 1, ..., size - 1], each once: every index of
    the range belongs to some rule, no other point belongs to any, and no
    point belongs to two rules. *)
Theorem set_up_partition (g : Geometry.t) :
  Geometry.is_set_up g = Ok true →
  ∃ sz, Geometry.size g = Some sz
    ∧ Geometry.collect (Geometry.rules g) ≡ₚ seqZ 0 sz
    ∧ NoDup (Geometry.collect (Geometry.rules g))
    ∧ (∀ p, 0 ≤ p < sz ↔
            ∃ r, r ∈ Geometry.rules g ∧ p ∈ Rule.affected_points r)
    ∧ (∀ i j r1 r2 p,
         Geometry.rules g !! i = Some r1 → Geometry.rules g !! j = Some r2 →
         p ∈ Rule.affected_points r1 → p ∈ Rule.affected_points r2 → i = j).
Proof.
  unfold Geometry.is_set_up. intros Hup.
  destruct (Geometry.shape g) as [s|] eqn:Hs; [|done].
  apply bind_Ok in Hup as (U & HU & Hup).
  destruct (bool_decide (size U ≠ 0%nat)) eqn:Hsz; [done|].
  apply bool_decide_eq_false in Hsz.
  apply bind_unit_Ok in Hup as ([[] Hchk] & _).
  apply unaffected_points_Ok in HU as (sz & Hsize & Hnd & ->).
  apply check_parameters_complete in Hchk as (s' & Hs' & Hlen & _).
  assert (s' = s) as -> by congruence.
  assert (sz = foldr Z.mul 1 s) as Hprod.
  { unfold Geometry.size in Hsize. rewrite Hs in Hsize. congruence. }
  assert (∀ p, p ∈ seqZ 0 sz → p ∈ Geometry.collect (Geometry.rules g)) as Hcover.
  { intros p Hp. destruct (decide (p ∈ Geometry.collect (Geometry.rules g))); [done|].
    exfalso. apply Hsz. apply size_non_empty_iff.
    intros Hempty. assert (p ∈ (∅ : gset Z)) as Habs; [|set_solver].
    rewrite <- Hempty. set_solver. }
  assert (Geometry.collect (Geometry.rules g) ≡ₚ seqZ 0 sz) as Hperm.
  { symmetry. apply submseteq_length_Permutation.
    - apply NoDup_submseteq; [apply NoDup_seqZ | done].
    - rewrite length_seqZ. lia. }
  exists sz. split_and!; try done.
  - intros p. rewrite <- elem_of_collect, Hperm, elem_of_seqZ. lia.
  - intros i j r1 r2 p. by apply collect_NoDup_owner.
Qed.

(** C8: a new rule that shares a point with a rule already in the geometry
    makes [add_rule] raise (an [AssertionError] whenever the shape is set)
    with the geometry left exactly as it was; a new rule whose points all lie
    in [unaffected_points] is appended to [rules], after which the integrity
    check of the enlarged geometry decides the outcome of the call. *)
Theorem add_rule_overlap (g : Geometry.t) (new_rule : Rule.t) :
  (∀ p, p ∈ Rule.affected_points new_rule →
        p ∈ Geometry.collect (Geometry.rules g) →
        (∃ e, Geometry.add_rule g new_rule = (g, Raise e))
        ∧ (is_Some (Geometry.shape g) →
           Geometry.add_rule g new_rule = (g, Raise AssertionError)))
  ∧ (∀ U, Geometry.unaffected_points g = Ok U →
          (∀ p, p ∈ Rule.affected_points new_rule → p ∈ U) →
          let g' := Geometry.mk (Geometry.shape g)
                                (Geometry.rules g ++ [new_rule]) in
          Geometry.add_rule g new_rule = (g', Geometry.check_integrity g' false)
          ∧ Geometry.rules (fst (Geometry.add_rule g new_rule))
            = Geometry.rules g ++ [new_rule]).
Proof.
  split.
  - intros p Hnew Hold. unfold Geometry.add_rule.
    destruct (Geometry.unaffected_points g) as [U|e] eqn:HU; simpl.
    + apply unaffected_points_Ok in HU as (sz & Hsz & Hnd & ->).
      rewrite bool_decide_eq_false_2; simpl; [by eauto|].
      intros Hsub. specialize (Hsub p). set_solver.
    + split; [by eauto|]. intros [s Hs].
      unfold Geometry.unaffected_points, Geometry.size in HU. rewrite Hs in HU.
      simpl in HU. unfold Geometry.affected_points in HU.
      destruct (assert _) eqn:Ha; simpl in HU; [done|].
      apply assert_Raise in Ha as [_ ->]. by injection HU as <-.
  - intros U HU Hsub g'. unfold Geometry.add_rule. rewrite HU. simpl.
    rewrite bool_decide_eq_true_2; [done|].
    intros p Hp. apply Hsub. set_solver.
Qed.

Lemma set_up_partition_witness :
  ∃ sz, Geometry.size geometry3 = Some sz
    ∧ Geometry.collect (Geometry.rules geometry3) ≡ₚ seqZ 0 sz.
Proof.
  destruct (set_up_partition geometry3) as (sz & Hsz & Hperm & _).
  - vm_compute. reflexivity.
  - exists sz. split; assumption.
Defined.

Lemma add_rule_overlap_witness :
  Geometry.add_rule geometry2 overlapping = (geometry2, Raise AssertionError)
  ∧ Geometry.rules (fst (Geometry.add_rule geometry2 right_end))
    = [left_end; middle; right_end].
Proof.
  destruct (add_rule_overlap geometry2 overlapping) as [Hover _].
  destruct (add_rule_overlap geometry2 right_end) as [_ Hfree].
  split.
  - apply (Hover 1).
    + apply list_elem_of_In. simpl. tauto.
    + apply list_elem_of_In. simpl. tauto.
    + by eexists.
  - apply (Hfree (list_to_set (seqZ 0 3) ∖ list_to_set [0; 1])).
    + vm_compute. reflexivity.
    + intros p Hp. apply list_elem_of_In in Hp. simpl in Hp.
      destruct Hp as [<- | []]. vm_compute. reflexivity.
Defined.

(** ** Indexing *)

Lemma norm_index_valid n i : valid n i → norm_index n i = Ok (pos_of n i).
Proof.
  unfold valid, norm_index, pos_of. intros Hv.
  destruct (bool_decide_reflect (0 ≤ i < Z.of_nat n)) as [Hp | Hp].
  - by rewrite Z.mod_small.
  - rewrite bool_decide_eq_true_2 by lia. do 2 f_equal.
    rewrite <- (Z.mod_add i 1) by lia. rewrite Z.mod_small; lia.
Qed.

Lemma norm_index_Ok n i k : norm_index n i = Ok k → valid n i ∧ k = pos_of n i.
Proof.
  intros Hk. assert (valid n i) as Hv.
  { unfold norm_index, valid in *. repeat case_bool_decide; try done; lia. }
  split; [done|]. rewrite norm_index_valid in Hk by done. congruence.
Qed.

Lemma pos_of_lt n i : valid n i → (pos_of n i < n)%nat.
Proof.
  unfold valid, pos_of. intros Hv.
  pose proof (Z.mod_pos_bound i (Z.of_nat n)). lia.
Qed.

Lemma pos_of_nat (n k : nat) : (k < n)%nat → pos_of n (Z.of_nat k) = k.
Proof. intros Hk. unfold pos_of. rewrite Z.mod_small; lia. Qed.

Lemma valid_nat (n k : nat) : (k < n)%nat → valid n (Z.of_nat k).
Proof. unfold valid. lia. Qed.

Lemma item_valid {A} (dflt : A) (a : list A) i :
  valid (length a) i → item a i = Ok (at_ dflt a i).
Proof.
  intros Hv. unfold item, at_. rewrite norm_index_valid by done. simpl.
  pose proof (pos_of_lt _ _ Hv) as Hlt.
  apply lookup_lt_is_Some_2 in Hlt as [x Hx]. rewrite Hx.
  f_equal. symmetry. by apply nth_lookup_Some.
Qed.

Lemma item_Ok {A} (dflt : A) (a : list A) i x :
  item a i = Ok x → valid (length a) i ∧ x = at_ dflt a i.
Proof.
  intros Hx. assert (valid (length a) i) as Hv.
  { unfold item in Hx. destruct (norm_index _ _) eqn:Hn; [|done].
    by apply norm_index_Ok in Hn as [? _]. }
  split; [done|]. rewrite (item_valid dflt) in Hx by done. congruence.
Qed.

Lemma at_lookup {A} (dflt : A) (a : list A) i :
  valid (length a) i → a !! pos_of (length a) i = Some (at_ dflt a i).
Proof.
  intros Hv. unfold at_. pose proof (pos_of_lt _ _ Hv) as Hlt.
  apply lookup_lt_is_Some_2 in Hlt as [x Hx]. rewrite Hx.
  f_equal. symmetry. by apply nth_lookup_Some.
Qed.

Lemma map_fmap {A B} (f : A → B) (l : list A) : map f l = f <$> l.
Proof. reflexivity. Qed.

(** ** [mapM] over outcomes *)

Lemma mapM_map {A B} (f : A → outcome B) (g : A → B) (l : list A) :
  (∀ x, x ∈ l → f x = Ok (g x)) → mapM f l = Ok (map g l).
Proof.
  induction l as [|x l IH]; intros Hf; simpl; [done|].
  rewrite Hf by left. simpl. rewrite IH; [done|].
  intros y Hy. apply Hf. by right.
Qed.

Lemma mapM_Ok_inv {A B} (f : A → outcome B) (l : list A) (ys : list B) :
  mapM f l = Ok ys → Forall2 (λ x y, f x = Ok y) l ys.
Proof.
  revert ys. induction l as [|x l IH]; intros ys; simpl.
  - intros [= <-]. constructor.
  - intros Hm. apply bind_Ok in Hm as (y & Hy & Hm).
    apply bind_Ok in Hm as (k & Hk & [= <-]). constructor; auto.
Qed.

Lemma take_valid {A} (dflt : A) (a : list A) (idx : list Z) :
  Forall (valid (length a)) idx → take a idx = Ok (map (at_ dflt a) idx).
Proof.
  intros Hv. apply mapM_map. intros i Hi. apply item_valid.
  by eapply Forall_forall in Hv.
Qed.

Lemma take_Ok {A} (dflt : A) (a : list A) (idx : list Z) xs :
  take a idx = Ok xs →
  Forall (valid (length a)) idx ∧ xs = map (at_ dflt a) idx.
Proof.
  intros Hx. assert (Forall (valid (length a)) idx) as Hv.
  { apply mapM_Ok_inv in Hx. clear -Hx dflt.
    induction Hx as [|i x idx xs Hi _ IH]; constructor; [|done].
    by apply (item_Ok dflt) in Hi as [? _]. }
  split; [done|]. rewrite (take_valid dflt) in Hx by done. congruence.
Qed.

Lemma mapM_norm_index n (idx : list Z) :
  Forall (valid n) idx → mapM (norm_index n) idx = Ok (map (pos_of n) idx).
Proof.
  intros Hv. apply mapM_map. intros i Hi. apply norm_index_valid.
  by eapply Forall_forall in Hv.
Qed.

Lemma addresses_pos n idx k :
  addresses n idx k ↔ ∃ j i, idx !! j = Some i ∧ valid n i ∧ pos_of n i = k.
Proof.
  unfold addresses. split.
  - intros (i & Hi & Hv & Hk). apply list_elem_of_lookup in Hi as [j Hj]. eauto.
  - intros (j & i & Hj & Hv & Hk). exists i. split; [|done].
    by eapply list_elem_of_lookup_2.
Qed.

Lemma addresses_map n idx k :
  Forall (valid n) idx → addresses n idx k ↔ k ∈ map (pos_of n) idx.
Proof.
  intros Hv. unfold addresses. rewrite list_elem_of_In, in_map_iff. split.
  - intros (i & Hi & _ & Hk). exists i. by rewrite <- list_elem_of_In.
  - intros (i & Hk & Hi). apply list_elem_of_In in Hi. exists i.
    split_and!; try done. by eapply Forall_forall in Hv.
Qed.

(** ** Assignment through index arrays *)

Lemma store_items_spec (r : row) (ks : list nat) (vals : row) :
  length ks = length vals →
  ∃ r', store_items r ks vals = Ok r' ∧ length r' = length r
    ∧ ∀ c, (c ∉ ks → r' !! c = r !! c)
         ∧ (c ∈ ks → (c < length r)%nat →
            ∃ j, ks !! j = Some c ∧ r' !! c = vals !! j).
Proof.
  revert r vals. induction ks as [|k ks IH]; intros r [|v vals] Hlen;
    try discriminate Hlen; simpl.
  - exists r. split_and!; try done. intros c. split; [done|].
    intros Hc. inversion Hc.
  - destruct (IH (<[k := v]> r) vals) as (r' & Hr' & Hl & Hlook); [by injection Hlen|].
    exists r'. rewrite length_insert in Hl. split_and!; try done.
    intros c. destruct (Hlook c) as [Hout Hin]. split.
    + intros Hc. apply not_elem_of_cons in Hc as [Hck Hc].
      rewrite Hout by done. by apply list_lookup_insert_ne.
    + intros Hc Hlt. destruct (decide (c ∈ ks)) as [Hcks | Hcks].
      * destruct Hin as (j & Hj & Hv); [done | by rewrite length_insert |].
        exists (S j). done.
      * apply elem_of_cons in Hc as [-> | Hc]; [|done].
        exists 0%nat. split; [done|]. rewrite Hout by done. simpl.
        by apply list_lookup_insert_eq.
Qed.

Lemma fit_row_same (old new : row) :
  length new = length old → fit_row old new = Ok new.
Proof. intros Hl. unfold fit_row. by rewrite bool_decide_eq_true_2. Qed.

Lemma store_rows_spec V (a : array) (ks : list nat) (vals : array) :
  Forall (λ r, length r = V) a → Forall (λ v, length v = V) vals →
  length ks = length vals → Forall (λ k, (k < length a)%nat) ks →
  ∃ a', store_rows a ks vals = Ok a' ∧ length a' = length a
    ∧ Forall (λ r, length r = V) a'
    ∧ ∀ k, (k ∉ ks → a' !! k = a !! k)
         ∧ (k ∈ ks → ∃ j, ks !! j = Some k ∧ a' !! k = vals !! j).
Proof.
  revert a vals. induction ks as [|k ks IH]; intros a [|v vals] Ha Hvals Hlen Hks;
    try discriminate Hlen; simpl.
  - exists a. split_and!; try done. intros c. split; [done|].
    intros Hc. inversion Hc.
  - apply Forall_cons in Hvals as [Hv Hvals]. apply Forall_cons in Hks as [Hk Hks].
    destruct (lookup_lt_is_Some_2 a k Hk) as [old Hold]. rewrite Hold.
    rewrite fit_row_same; simpl.
    2:{ rewrite Hv. symmetry. eapply Forall_forall in Ha; [exact Ha|].
        by eapply list_elem_of_lookup_2. }
    destruct (IH (<[k := v]> a) vals) as (a' & Ha' & Hl & Hcols & Hlook).
    { apply Forall_insert; done. }
    { done. }
    { by injection Hlen. }
    { by rewrite length_insert. }
    exists a'. rewrite length_insert in Hl. split_and!; try done.
    intros c. destruct (Hlook c) as [Hout Hin]. split.
    + intros Hc. apply not_elem_of_cons in Hc as [Hck Hc].
      rewrite Hout by done. by apply list_lookup_insert_ne.
    + intros Hc. destruct (decide (c ∈ ks)) as [Hcks | Hcks].
      * destruct Hin as (j & Hj & Hvj); [done|]. exists (S j). done.
      * apply elem_of_cons in Hc as [-> | Hc]; [|done].
        exists 0%nat. split; [done|]. rewrite Hout by done. simpl.
        by apply list_lookup_insert_eq.
Qed.

(** Rows that no index addresses are not written, whatever the outcome of
    the rest of the assignment. *)
Lemma store_rows_frame (a : array) ks vals a' k :
  store_rows a ks vals = Ok a' → k ∉ ks → a' !! k = a !! k.
Proof.
  revert a vals. induction ks as [|k0 ks IH]; intros a [|v vals]; simpl;
    try done.
  - by intros [= <-].
  - destruct (a !! k0) as [old|] eqn:Hold; [|done].
    destruct (fit_row old v) as [v'|] eqn:Hfit; [|done]. simpl.
    intros Hst Hk. apply not_elem_of_cons in Hk as [Hne Hk].
    rewrite (IH _ _ Hst Hk). by apply list_lookup_insert_ne.
Qed.

Lemma addresses_norm n (idx : list Z) (ks : list nat) k :
  mapM (norm_index n) idx = Ok ks → k ∈ ks → addresses n idx k.
Proof.
  intros Hks Hin. apply mapM_Ok_inv in Hks.
  induction Hks as [|i k0 idx ks Hi _ IH].
  - inversion Hin.
  - apply norm_index_Ok in Hi as [Hv ->].
    apply elem_of_cons in Hin as [-> | Hin].
    + exists i. split_and!; try done. left.
    + destruct (IH Hin) as (i' & Hi' & Hv' & Hp'). exists i'.
      split_and!; try done. by right.
Qed.

Lemma set_rows_frame (a : array) idx vals a' k :
  set_rows a idx vals = Ok a' → ¬ addresses (length a) idx k → a' !! k = a !! k.
Proof.
  unfold set_rows. intros Hs Hk. apply bind_Ok in Hs as (ks & Hks & Hs).
  eapply store_rows_frame; [done|]. intros Hin. apply Hk.
  by eapply addresses_norm.
Qed.

Lemma set_rows_spec V (a : array) (idx : list Z) (vals : array) :
  Forall (λ r, length r = V) a → Forall (λ v, length v = V) vals →
  length idx = length vals → Forall (valid (length a)) idx →
  ∃ a', set_rows a idx vals = Ok a' ∧ length a' = length a
    ∧ Forall (λ r, length r = V) a'
    ∧ ∀ k, (¬ addresses (length a) idx k → a' !! k = a !! k)
         ∧ (addresses (length a) idx k →
            ∃ j i, idx !! j = Some i ∧ pos_of (length a) i = k
                   ∧ a' !! k = vals !! j).
Proof.
  intros Ha Hvals Hlen Hidx. unfold set_rows.
  rewrite mapM_norm_index by done. simpl.
  destruct (store_rows_spec V a (map (pos_of (length a)) idx) vals)
    as (a' & Ha' & Hl & Hcols & Hlook); try done.
  { by rewrite length_map. }
  { apply Forall_map. eapply Forall_impl; [exact Hidx|].
    intros i Hi. by apply pos_of_lt. }
  exists a'. split_and!; try done. intros k.
  destruct (Hlook k) as [Hout Hin]. rewrite addresses_map by done. split; [done|].
  intros Hk. destruct (Hin Hk) as (j & Hj & Hv).
  rewrite map_fmap in Hj.
  apply list_lookup_fmap_Some in Hj as (i & -> & Hi). eauto.
Qed.

Lemma bcast_same f (xs ys : row) :
  length xs = length ys → bcast f xs ys = Ok (zip_with f xs ys).
Proof. intros Hl. unfold bcast. by rewrite bool_decide_eq_true_2. Qed.

Lemma at_elem_of {A} (dflt : A) (a : list A) i :
  valid (length a) i → at_ dflt a i ∈ a.
Proof. intros Hv. eapply list_elem_of_lookup_2. by apply at_lookup. Qed.

Lemma at_same_pos {A} (dflt : A) (a : list A) i i' :
  pos_of (length a) i = pos_of (length a) i' → at_ dflt a i = at_ dflt a i'.
Proof. unfold at_. by intros ->. Qed.

Lemma at_nat {A} (dflt : A) (a : list A) (k : nat) x :
  a !! k = Some x → at_ dflt a (Z.of_nat k) = x.
Proof.
  intros Hk. unfold at_. rewrite pos_of_nat by (by eapply lookup_lt_Some).
  by apply nth_lookup_Some.
Qed.

Lemma set_columns_spec V (acc : array) (vels : list Z) (vals : array) :
  Forall (λ r, length r = V) acc → Forall (valid V) vels →
  length vals = length acc → Forall (λ v, length v = length vels) vals →
  ∃ out, set_columns acc vels vals = Ok out ∧ length out = length acc
    ∧ Forall (λ r, length r = V) out
    ∧ ∀ j r v, acc !! j = Some r → vals !! j = Some v →
        ∃ o, out !! j = Some o ∧ ∀ c, (c < V)%nat →
          (¬ addresses V vels c → o !! c = r !! c)
          ∧ (addresses V vels c →
             ∃ m i, vels !! m = Some i ∧ pos_of V i = c ∧ o !! c = v !! m).
Proof.
  intros Hacc Hvels. revert vals.
  induction Hacc as [|r acc Hr Hacc IH]; intros [|v vals] Hlen Hvals;
    try discriminate Hlen; simpl.
  - exists []. split_and!; done.
  - apply Forall_cons in Hvals as [Hv Hvals].
    rewrite Hr, mapM_norm_index by done. simpl.
    destruct (store_items_spec r (map (pos_of V) vels) v) as (r' & Hr' & Hl & Hlook).
    { by rewrite length_map. }
    rewrite Hr'. simpl.
    destruct (IH vals) as (out & Hout & Hlo & Hcols & Hrows); [by injection Hlen | done |].
    rewrite Hout. simpl. exists (r' :: out). split_and!.
    + done.
    + simpl. by rewrite Hlo.
    + constructor; [congruence | done].
    + intros [|j] r0 v0 Hj Hvj; simpl in *.
      * injection Hj as <-. injection Hvj as <-. exists r'. split; [done|].
        intros c Hc. destruct (Hlook c) as [Hout' Hin']. split.
        -- intros Hna. apply Hout'. by rewrite <- addresses_map.
        -- intros Ha. apply addresses_map in Ha; [|done].
           destruct Hin' as (m & Hm & Hval); [done | lia |].
           rewrite map_fmap in Hm.
           apply list_lookup_fmap_Some in Hm as (i & -> & Hi). eauto.
      * by apply Hrows.
Qed.

Lemma inflow_from_spec data P V (pct : row) aff shift vels acc :
  shapes data P V → length pct = V → Forall (valid V) vels →
  Forall (λ p, valid P (p + shift)) aff →
  length acc = length aff → Forall (λ r, length r = V) acc →
  ∃ out, inflow_from data pct aff shift vels acc = Ok out
    ∧ length out = length aff ∧ Forall (λ r, length r = V) out
    ∧ ∀ j p r, aff !! j = Some p → acc !! j = Some r →
        ∃ o, out !! j = Some o ∧ ∀ c, (c < V)%nat →
          (¬ addresses V vels c → o !! c = r !! c)
          ∧ (addresses V vels c →
             o !! c = Some (at_ 0 pct (Z.of_nat c)
                            * entry (state data) (p + shift) (Z.of_nat c))%Q).
Proof.
  intros Hsh Hpct Hvels Haff Hlacc Hacc. unfold inflow_from.
  rewrite (take_valid 0%Q) by (by rewrite Hpct). simpl.
  unfold ix_. rewrite (take_valid []).
  2:{ apply Forall_map. rewrite (state_rows _ _ _ Hsh).
      eapply Forall_impl; [exact Haff | done]. }
  simpl.
  assert (∀ p, valid P (p + shift) →
               length (at_ [] (state data) (p + shift)) = V) as Hrowlen.
  { intros p Hp. pose proof (state_cols _ _ _ Hsh) as Hc.
    eapply Forall_forall in Hc; [exact Hc|]. apply at_elem_of.
    by rewrite (state_rows _ _ _ Hsh). }
  rewrite (mapM_map _ (λ r, map (at_ 0%Q r) vels)).
  2:{ intros r Hr. apply take_valid. rewrite map_map in Hr.
      apply list_elem_of_In, in_map_iff in Hr as (p & <- & Hp).
      apply list_elem_of_In in Hp. eapply Forall_forall in Haff; [|done].
      by rewrite Hrowlen. }
  simpl. unfold bcast_rows_l.
  rewrite (mapM_map _ (zip_with Qmult (map (at_ 0%Q pct) vels))).
  2:{ intros r Hr. apply bcast_same.
      apply list_elem_of_In, in_map_iff in Hr as (r0 & <- & _).
      by rewrite !length_map. }
  simpl.
  destruct (set_columns_spec V acc vels
    (map (zip_with Qmult (map (at_ 0%Q pct) vels))
       (map (λ r, map (at_ 0%Q r) vels)
          (map (at_ [] (state data)) (map (λ p, p + shift) aff)))))
    as (out & Hout & Hlo & Hcols & Hrows); try done.
  { by rewrite !length_map. }
  { apply Forall_map, Forall_map, Forall_forall. intros r _.
    rewrite length_zip_with, !length_map. lia. }
  exists out. split_and!; try done; [congruence|].
  intros j p r Hj Hrj.
  destruct (Hrows j r
    (zip_with Qmult (map (at_ 0%Q pct) vels)
       (map (at_ 0%Q (at_ [] (state data) (p + shift))) vels)))
    as (o & Ho & Hent); [done | |].
  { rewrite !map_fmap, !list_lookup_fmap, Hj. done. }
  exists o. split; [done|]. intros c Hc. destruct (Hent c Hc) as [Hna Ha].
  split; [done|]. intros Hadr. destruct (Ha Hadr) as (m & i & Hm & Hpos & ->).
  rewrite lookup_zip_with, !map_fmap, !list_lookup_fmap, Hm. simpl.
  assert (valid P (p + shift)) as Hvp.
  { eapply Forall_forall in Haff; [exact Haff|]. by eapply list_elem_of_lookup_2. }
  do 2 f_equal.
  - apply at_same_pos. rewrite Hpct, Hpos. by rewrite pos_of_nat.
  - unfold entry. apply at_same_pos. rewrite Hrowlen by done.
    rewrite Hpos. by rewrite pos_of_nat.
Qed.

(** ** Effective velocities *)


Lemma at_map {A B} (f : A → B) (dA : A) (dB : B) (l : list A) i :
  valid (length l) i → at_ dB (map f l) i = f (at_ dA l i).
Proof.
  intros Hv. unfold at_. rewrite length_map.
  pose proof (pos_of_lt _ _ Hv) as Hlt.
  rewrite (nth_indep _ dB (f dA)) by (by rewrite length_map).
  apply map_nth.
Qed.

Lemma at_zero_hd (r : row) : at_ 0%Q r 0 = hd 0%Q r.
Proof. unfold at_, pos_of. rewrite Zmod_0_l. by destruct r. Qed.

Lemma column0_hd (a : array) :
  Forall (λ r, r ≠ []) a → column0 a = Ok (map (hd 0%Q) a).
Proof.
  intros Hne. apply mapM_map. intros r Hr.
  eapply Forall_forall in Hne; [|done].
  rewrite (item_valid 0%Q); [by rewrite at_zero_hd|].
  unfold valid. destruct r; [done | simpl; lia].
Qed.

Section Velocities.
Context (data : Data) (P V : nat) (Hsh : shapes data P V).

Lemma pv_array_length : length (pv_array data) = V.
Proof. unfold pv_array. rewrite length_map. apply (vG_rows _ _ _ Hsh). Qed.

Lemma pv_column_length : length (pv_column data) = V.
Proof. unfold pv_column. rewrite length_map. apply pv_array_length. Qed.

Lemma pv_array_nonempty : Forall (λ r, r ≠ []) (pv_array data).
Proof.
  unfold pv_array. apply Forall_map.
  pose proof (vG_cols _ _ _ Hsh) as Hc. pose proof (offset_dims _ _ _ Hsh) as Ho.
  eapply Forall_impl; [exact Hc|]. intros r Hr. simpl in *.
  destruct r, (velocity_offset data); done.
Qed.

Lemma pv_of_spec : pv_of data = Ok (pv_array data).
Proof.
  unfold pv_of, pv_array. apply mapM_map. intros r Hr. apply bcast_same.
  pose proof (vG_cols _ _ _ Hsh) as Hc. by eapply Forall_forall in Hc.
Qed.

Lemma pv_array_hd i :
  valid V i → hd 0%Q (at_ [] (pv_array data) i) = pv0 data i.
Proof.
  intros Hv. unfold pv_array, pv0, entry.
  rewrite (at_map _ [] []) by (by rewrite (vG_rows _ _ _ Hsh)).
  rewrite !at_zero_hd.
  assert (at_ [] (vG data) i ∈ vG data) as Hin.
  { apply at_elem_of. by rewrite (vG_rows _ _ _ Hsh). }
  pose proof (vG_cols _ _ _ Hsh) as Hc. eapply Forall_forall in Hc; [|exact Hin].
  pose proof (offset_dims _ _ _ Hsh) as Ho.
  destruct (at_ [] (vG data) i), (velocity_offset data); done.
Qed.

Lemma pv_column_at i : valid V i → at_ 0%Q (pv_column data) i = pv0 data i.
Proof.
  intros Hv. unfold pv_column.
  rewrite (at_map _ [] 0%Q) by (by rewrite pv_array_length).
  by apply pv_array_hd.
Qed.

Lemma pv_column_lookup (c : nat) :
  (c < V)%nat → pv_column data !! c = Some (pv0 data (Z.of_nat c)).
Proof.
  intros Hc. rewrite <- pv_column_at by (by apply valid_nat).
  rewrite <- (pos_of_nat V c) at 1 by done.
  rewrite <- pv_column_length at 1. apply at_lookup.
  rewrite pv_column_length. by apply valid_nat.
Qed.

Lemma inflow_percentage_of_spec :
  inflow_percentage_of data (pv_array data)
  = Ok (map (λ x, dt data / dp data * Qabs x)%Q (pv_column data)).
Proof.
  unfold inflow_percentage_of. rewrite column0_hd by apply pv_array_nonempty.
  done.
Qed.

Lemma inflow_percentage_at (c : nat) :
  (c < V)%nat →
  at_ 0%Q (map (λ x, dt data / dp data * Qabs x)%Q (pv_column data)) (Z.of_nat c)
  = inflow_fraction data (Z.of_nat c).
Proof.
  intros Hc. rewrite (at_map _ 0%Q).
  - unfold inflow_fraction. by rewrite pv_column_at by (by apply valid_nat).
  - rewrite pv_column_length. by apply valid_nat.
Qed.


End Velocities.

(** ** [np.where] *)

Lemma elem_of_where_from i cond xs z :
  z ∈ where_from i cond xs ↔
  ∃ (k : nat) x, xs !! k = Some x ∧ cond x = true ∧ z = i + Z.of_nat k.
Proof.
  revert i. induction xs as [|y xs IH]; intros i; simpl.
  - split; [intros Hz; inversion Hz | by intros (k & x & Hk & _)].
  - rewrite elem_of_app, IH. split.
    + intros [Hz | (k & x & Hk & Hc & ->)].
      * destruct (cond y) eqn:Hy; [|inversion Hz].
        apply list_elem_of_singleton in Hz as ->. exists 0%nat, y.
        split_and!; [done | done | lia].
      * exists (S k), x. split_and!; [done | done | lia].
    + intros ([|k] & x & Hk & Hc & ->); simpl in Hk.
      * injection Hk as ->. left. rewrite Hc. apply list_elem_of_singleton. lia.
      * right. exists k, x. split_and!; [done | done | lia].
Qed.

Lemma where_valid cond xs : Forall (valid (length xs)) (where_ cond xs).
Proof.
  apply Forall_forall. intros z Hz.
  apply elem_of_where_from in Hz as (k & x & Hk & _ & ->).
  apply lookup_lt_Some in Hk. unfold valid. lia.
Qed.

Lemma addresses_where cond xs c :
  addresses (length xs) (where_ cond xs) c ↔
  ∃ x, xs !! c = Some x ∧ cond x = true.
Proof.
  unfold addresses. split.
  - intros (i & Hi & _ & Hp).
    apply elem_of_where_from in Hi as (k & x & Hk & Hc & ->).
    rewrite Z.add_0_l, pos_of_nat in Hp by (by eapply lookup_lt_Some).
    subst k. eauto.
  - intros (x & Hc & Hx). pose proof (lookup_lt_Some _ _ _ Hc) as Hlt.
    exists (Z.of_nat c). split_and!.
    + apply elem_of_where_from. exists c, x. split_and!; [done | done | lia].
    + by apply valid_nat.
    + by apply pos_of_nat.
Qed.





(** ** The inflow functions *)

Lemma zeros_lookup m n j :
  (j < m)%nat → zeros m n !! j = Some (replicate n 0%Q).
Proof. intros Hj. unfold zeros. by apply lookup_replicate_2. Qed.

Lemma zeros_cols m n : Forall (λ r : row, length r = n) (zeros m n).
Proof.
  unfold zeros. apply Forall_forall. intros r Hr.
  apply elem_of_replicate in Hr as [-> _]. apply length_replicate.
Qed.

Lemma transport_inflow_innerPoint_spec data P V aff :
  shapes data P V →
  Forall (λ p, valid P (p + 1)) aff → Forall (λ p, valid P (p - 1)) aff →
  ∃ out, transport_inflow_innerPoint data aff = Ok out
    ∧ length out = length aff ∧ Forall (λ r, length r = V) out
    ∧ ∀ j p, aff !! j = Some p →
        ∃ o, out !! j = Some o ∧ ∀ c, (c < V)%nat →
          o !! c = Some (inflow_value data p (Z.of_nat c)).
Proof.
  intros Hsh Hup Hdown. unfold transport_inflow_innerPoint.
  rewrite (pv_of_spec _ _ _ Hsh). simpl.
  rewrite (inflow_percentage_of_spec _ _ _ Hsh). simpl.
  rewrite column0_hd by (by eapply pv_array_nonempty). simpl.
  fold (pv_column data). rewrite (vG_rows _ _ _ Hsh).
  set (pct := map (λ x, dt data / dp data * Qabs x)%Q (pv_column data)).
  assert (length (pv_column data) = V) as Hc0 by (by eapply pv_column_length).
  destruct (inflow_from_spec data P V pct aff 1
              (where_ (λ x, Qltb x 0) (pv_column data)) (zeros (length aff) V))
    as (o1 & Ho1 & Hl1 & Hcols1 & Hrows1); try done.
  { unfold pct. by rewrite length_map. }
  { rewrite <- Hc0 at 1. apply where_valid. }
  { unfold zeros. by rewrite length_replicate. }
  { apply zeros_cols. }
  rewrite Ho1. simpl.
  destruct (inflow_from_spec data P V pct aff (-1)
              (where_ (λ x, Qltb 0 x) (pv_column data)) o1)
    as (o2 & Ho2 & Hl2 & Hcols2 & Hrows2); try done.
  { unfold pct. by rewrite length_map. }
  { rewrite <- Hc0 at 1. apply where_valid. }
  rewrite Ho2. simpl. exists o2. split_and!; try done.
  intros j p Hj. pose proof (lookup_lt_Some _ _ _ Hj) as Hjlt.
  destruct (Hrows1 j p (replicate V 0%Q) Hj) as (r1 & Hr1 & Hent1).
  { by apply zeros_lookup. }
  destruct (Hrows2 j p r1 Hj Hr1) as (r2 & Hr2 & Hent2).
  exists r2. split; [done|]. intros c Hc.
  destruct (Hent1 c Hc) as [Hn1 Ha1]. destruct (Hent2 c Hc) as [Hn2 Ha2].
  rewrite <- Hc0 in Hn1, Ha1, Hn2, Ha2.
  rewrite addresses_where in Hn1, Ha1, Hn2, Ha2.
  rewrite (pv_column_lookup _ _ _ Hsh) in Hn1, Ha1, Hn2, Ha2 by done.
  unfold pct in Ha1, Ha2.
  rewrite (inflow_percentage_at _ _ _ Hsh) in Ha1, Ha2 by done.
  unfold inflow_value.
  destruct (Qltb 0 (pv0 data (Z.of_nat c))) eqn:Hpos.
  { apply Ha2. eauto. }
  rewrite Hn2 by (intros (x & [= <-] & Hx); congruence).
  destruct (Qltb (pv0 data (Z.of_nat c)) 0) eqn:Hneg.
  { apply Ha1. eauto. }
  rewrite Hn1 by (intros (x & [= <-] & Hx); congruence).
  apply lookup_replicate_2. lia.
Qed.



(** ** The inner-point transport *)

Lemma Qltb_lt x y : Qltb x y = true ↔ (x < y)%Q.
Proof.
  unfold Qltb. rewrite negb_true_iff. split.
  - intros Hb. apply Qnot_le_lt. intros Hle. apply Qle_bool_iff in Hle. congruence.
  - intros Hlt. apply not_true_is_false. intros Hle. apply Qle_bool_iff in Hle.
    by apply Qlt_not_le in Hlt.
Qed.

Lemma iadd_rows_spec V (a b : array) :
  Forall (λ r, length r = V) a → Forall (λ r, length r = V) b →
  length a = length b →
  iadd_rows a b = Ok (zip_with (zip_with Qplus) a b).
Proof.
  intros Ha. revert b. induction Ha as [|r a Hr Ha IH]; intros [|x b] Hb Hl;
    try discriminate Hl; simpl; [done|].
  apply Forall_cons in Hb as [Hx Hb]. unfold iadd_row.
  rewrite fit_row_same by congruence. simpl.
  rewrite IH; [done | done | by injection Hl].
Qed.

Lemma pos_of_shift n i i' s :
  valid n i → pos_of n i = pos_of n i' → pos_of n (i + s) = pos_of n (i' + s).
Proof.
  unfold valid, pos_of. intros Hv Hp.
  assert (i mod Z.of_nat n = i' mod Z.of_nat n) as Hm.
  { pose proof (Z.mod_pos_bound i (Z.of_nat n)).
    pose proof (Z.mod_pos_bound i' (Z.of_nat n)). lia. }
  f_equal. rewrite (Z.add_mod i), (Z.add_mod i') by lia. by rewrite Hm.
Qed.

Lemma entry_same_pos (a : array) p p' v :
  pos_of (length a) p = pos_of (length a) p' → entry a p v = entry a p' v.
Proof. intros Hp. unfold entry. by rewrite (at_same_pos [] a p p'). Qed.

Lemma inflow_value_same_pos data P V p p' v :
  shapes data P V → valid P p → pos_of P p = pos_of P p' →
  inflow_value data p v = inflow_value data p' v.
Proof.
  intros Hsh Hv Hp. unfold inflow_value.
  rewrite (entry_same_pos (state data) (p - 1) (p' - 1)),
          (entry_same_pos (state data) (p + 1) (p' + 1)); [done | |].
  - rewrite (state_rows _ _ _ Hsh). by apply pos_of_shift.
  - rewrite (state_rows _ _ _ Hsh). by apply (pos_of_shift P p p' (-1)).
Qed.

Lemma transport_outflow_remains_spec data P V aff :
  shapes data P V → Forall (valid P) aff →
  ∃ out, transport_outflow_remains data aff = Ok out
    ∧ length out = length aff ∧ Forall (λ r, length r = V) out
    ∧ ∀ j p, aff !! j = Some p →
        ∃ o, out !! j = Some o ∧ ∀ c, (c < V)%nat →
          o !! c = Some ((1 - flow_fraction data (Z.of_nat c))
                         * entry (state data) p (Z.of_nat c))%Q.
Proof.
  intros Hsh Haff. unfold transport_outflow_remains.
  pose proof (vG_cols _ _ _ Hsh) as HvG. pose proof (offset_dims _ _ _ Hsh) as Ho.
  rewrite column0_hd.
  2:{ eapply Forall_impl; [exact HvG|]. intros r Hr. simpl in Hr.
      destruct r, (velocity_offset data); done. }
  simpl. rewrite (item_valid 0%Q).
  2:{ unfold valid. destruct (velocity_offset data); [done | simpl; lia]. }
  simpl. rewrite (take_valid []) by (by rewrite (state_rows _ _ _ Hsh)). simpl.
  set (W := map (λ o, 1 - o)%Q
              (map (λ x, Qabs (x + at_ 0 (velocity_offset data) 0) * dt data / dp data)%Q
                 (map (hd 0%Q) (vG data)))).
  assert (length W = V) as HW.
  { unfold W. rewrite !length_map. apply (vG_rows _ _ _ Hsh). }
  assert (∀ p, valid P p → length (at_ [] (state data) p) = V) as Hrow.
  { intros p Hp. pose proof (state_cols _ _ _ Hsh) as Hc.
    eapply Forall_forall in Hc; [exact Hc|]. apply at_elem_of.
    by rewrite (state_rows _ _ _ Hsh). }
  unfold bcast_rows_l. rewrite (mapM_map _ (zip_with Qmult W)).
  2:{ intros r Hr. apply bcast_same.
      apply list_elem_of_In, in_map_iff in Hr as (p & <- & Hp).
      apply list_elem_of_In in Hp. eapply Forall_forall in Haff; [|done].
      rewrite Hrow; done. }
  eexists. split; [done|]. split_and!.
  - by rewrite !length_map.
  - apply Forall_map, Forall_map, Forall_forall. intros p Hp. simpl.
    eapply Forall_forall in Haff; [|done].
    rewrite length_zip_with, HW, Hrow by done. lia.
  - intros j p Hj. rewrite !map_fmap, !list_lookup_fmap, Hj. simpl.
    eexists. split; [done|]. intros c Hc.
    assert (valid P p) as Hp.
    { eapply Forall_forall in Haff; [exact Haff|]. by eapply list_elem_of_lookup_2. }
    rewrite lookup_zip_with. unfold W.
    rewrite !map_fmap, !list_lookup_fmap.
    destruct (lookup_lt_is_Some_2 (vG data) c) as [vrow Hvrow].
    { by rewrite (vG_rows _ _ _ Hsh). }
    destruct (lookup_lt_is_Some_2 (at_ [] (state data) p) c) as [s Hs].
    { by rewrite Hrow. }
    rewrite Hvrow, Hs. cbn [fmap option_fmap option_map mbind option_bind].
    do 2 f_equal.
    + unfold flow_fraction, pv0, entry. rewrite (at_nat [] _ _ _ Hvrow).
      by rewrite (at_zero_hd vrow).
    + unfold entry. symmetry. by apply at_nat.
Qed.

Lemma transport_fdm_inner_run data P V aff :
  shapes data P V → p_dim data = 1 →
  Forall (valid P) aff →
  Forall (λ p, valid P (p + 1)) aff → Forall (λ p, valid P (p - 1)) aff →
  ∃ r2, transport_fdm_inner data aff = (set_result r2 data, Ok tt)
    ∧ length r2 = P ∧ Forall (λ r, length r = V) r2
    ∧ ∀ k, (¬ addresses P aff k → r2 !! k = result data !! k)
         ∧ (∀ p, p ∈ aff → pos_of P p = k →
              ∃ o, r2 !! k = Some o ∧ ∀ c, (c < V)%nat →
                o !! c = Some ((1 - flow_fraction data (Z.of_nat c))
                               * entry (state data) p (Z.of_nat c)
                               + inflow_value data p (Z.of_nat c))%Q).
Proof.
  intros Hsh Hdim Haff Hup Hdown.
  pose proof (result_rows _ _ _ Hsh) as HP.
  unfold transport_fdm_inner. rewrite bool_decide_eq_false_2 by (by intros []).
  unfold seq_action, write_result.
  destruct (transport_outflow_remains_spec data P V aff)
    as (out & Hout & Hlout & Hcout & Hrout); [done | done |].
  rewrite Hout. cbn [mbind outcome_bind].
  destruct (set_rows_spec V (result data) aff out)
    as (r1 & Hr1 & Hl1 & Hc1 & Hlook1);
    [apply (result_cols _ _ _ Hsh) | done | done | by rewrite HP |].
  rewrite Hr1. cbn [result set_result].
  rewrite (take_valid []) by (by rewrite Hl1, HP).
  cbn [mbind outcome_bind].
  change (transport_inflow_innerPoint (set_result r1 data) aff)
    with (transport_inflow_innerPoint data aff).
  destruct (transport_inflow_innerPoint_spec data P V aff)
    as (inflow & Hin & Hlin & Hcin & Hrin); [done | done | done |].
  rewrite Hin. cbn [mbind outcome_bind].
  assert (Forall (λ r : row, length r = V) (map (at_ [] r1) aff)) as Hccur.
  { apply Forall_map, Forall_forall. intros p Hp. simpl.
    eapply Forall_forall in Hc1; [exact Hc1|]. apply at_elem_of.
    rewrite Hl1, HP. by eapply Forall_forall in Haff. }
  rewrite (iadd_rows_spec V) by (rewrite ?length_map; done).
  cbn [mbind outcome_bind].
  destruct (set_rows_spec V r1 aff
              (zip_with (zip_with Qplus) (map (at_ [] r1) aff) inflow))
    as (r2 & Hr2 & Hl2 & Hc2 & Hlook2).
  { done. }
  { apply Forall_forall. intros r Hr.
    apply list_elem_of_lookup in Hr as [j Hj].
    apply lookup_zip_with_Some in Hj as (x & y & -> & Hx & Hy).
    rewrite length_zip_with.
    eapply Forall_forall in Hccur; [|by eapply list_elem_of_lookup_2].
    eapply Forall_forall in Hcin; [|by eapply list_elem_of_lookup_2].
    simpl in *. lia. }
  { rewrite length_zip_with, length_map. lia. }
  { by rewrite Hl1, HP. }
  rewrite Hr2. exists r2. rewrite Hl1, HP in *. split_and!; try done.
  intros k. destruct (Hlook1 k) as [Hout1 Hin1]. destruct (Hlook2 k) as [Hout2 Hin2].
  split.
  - intros Hna. rewrite Hout2, Hout1 by done. done.
  - intros p Hp Hk. assert (valid P p) as Hvp by (by eapply Forall_forall in Haff).
    assert (addresses P aff k) as Hadr by (by exists p).
    destruct (Hin2 Hadr) as (j2 & i2 & Hj2 & Hk2 & Hrow2).
    destruct (Hin1 Hadr) as (j1 & i1 & Hj1 & Hk1 & Hrow1).
    assert (valid P i2) as Hvi2.
    { eapply Forall_forall in Haff; [exact Haff|]. by eapply list_elem_of_lookup_2. }
    destruct (Hrout j1 i1 Hj1) as (o1 & Ho1 & Hent1).
    destruct (Hrin j2 i2 Hj2) as (o2 & Ho2 & Hent2).
    rewrite Hrow2, lookup_zip_with, map_fmap, list_lookup_fmap, Hj2, Ho2.
    cbn [fmap option_fmap option_map mbind option_bind].
    eexists. split; [done|]. intros c Hc.
    rewrite lookup_zip_with.
    assert (at_ [] r1 i2 = o1) as ->.
    { pose proof (at_lookup [] r1 i2) as Hat. rewrite Hl1 in Hat.
      rewrite Hk2, Hrow1, Ho1 in Hat. specialize (Hat Hvi2). congruence. }
    rewrite Hent1, Hent2 by done.
    cbn [mbind option_bind]. do 2 f_equal.
    + f_equal. apply entry_same_pos. rewrite (state_rows _ _ _ Hsh). congruence.
    + eapply inflow_value_same_pos; [done | done | congruence].
Qed.

(** C2: on a well-shaped 1D state, with every affected point and both its
    neighbours legal indices, [transport_fdm_inner] returns and, for every
    affected point [p] and velocity [v], the result buffer holds at [p, v]
    the value [(1 - |pv0|*dt/dp) * state[p,v]] plus the inflow of the code,
    which is [dt/dp*|pv0|] times [state[p+1,v]] for [pv0 < 0], times
    [state[p-1,v]] for [pv0 > 0], and nothing for [pv0 == 0]: as rationals,
    the value of the claim. *)
Theorem transport_fdm_inner_value data P V aff :
  shapes data P V → p_dim data = 1 →
  Forall (λ p, valid P p ∧ valid P (p + 1) ∧ valid P (p - 1)) aff →
  ∃ data', transport_fdm_inner data aff = (data', Ok tt)
    ∧ state data' = state data ∧ t data' = t data
    ∧ ∀ p (v : nat), p ∈ aff → (v < V)%nat →
        ∃ w, result data' !! pos_of P p ≫= (.!! v) = Some w
          ∧ w = ((1 - flow_fraction data (Z.of_nat v))
                 * entry (state data) p (Z.of_nat v)
                 + inflow_value data p (Z.of_nat v))%Q
          ∧ ((pv0 data (Z.of_nat v) < 0)%Q →
             (w == (1 - flow_fraction data (Z.of_nat v))
                   * entry (state data) p (Z.of_nat v)
                   + flow_fraction data (Z.of_nat v)
                     * entry (state data) (p + 1) (Z.of_nat v))%Q)
          ∧ ((0 < pv0 data (Z.of_nat v))%Q →
             (w == (1 - flow_fraction data (Z.of_nat v))
                   * entry (state data) p (Z.of_nat v)
                   + flow_fraction data (Z.of_nat v)
                     * entry (state data) (p - 1) (Z.of_nat v))%Q)
          ∧ ((pv0 data (Z.of_nat v) == 0)%Q →
             (w == entry (state data) p (Z.of_nat v))%Q).
Proof.
  intros Hsh Hdim Haff.
  destruct (transport_fdm_inner_run data P V aff)
    as (r2 & Hrun & Hl2 & Hc2 & Hlook); try done.
  { eapply Forall_impl; [exact Haff|]. by intros p (? & ? & ?). }
  { eapply Forall_impl; [exact Haff|]. by intros p (? & ? & ?). }
  { eapply Forall_impl; [exact Haff|]. by intros p (? & ? & ?). }
  exists (set_result r2 data). split_and!; try done.
  intros p v Hp Hv. destruct (Hlook (pos_of P p)) as [_ Hin].
  destruct (Hin p Hp eq_refl) as (o & Ho & Hent).
  cbn [result set_result]. rewrite Ho. cbn [mbind option_bind].
  rewrite (Hent v Hv). eexists. split; [done|]. split; [done|].
  unfold inflow_value, flow_fraction, inflow_fraction, Qdiv.
  set (x := pv0 data (Z.of_nat v)).
  split_and!.
  - intros Hneg.
    assert (Qltb 0 x = false) as ->.
    { apply not_true_is_false. rewrite Qltb_lt. intros Hpos.
      apply (Qlt_irrefl x). by eapply Qlt_trans. }
    assert (Qltb x 0 = true) as -> by (by apply Qltb_lt).
    ring.
  - intros Hpos. assert (Qltb 0 x = true) as -> by (by apply Qltb_lt). ring.
  - intros Hzero.
    assert (Qltb 0 x = false) as ->.
    { apply not_true_is_false. rewrite Qltb_lt. rewrite Hzero. apply Qlt_irrefl. }
    assert (Qltb x 0 = false) as ->.
    { apply not_true_is_false. rewrite Qltb_lt. rewrite Hzero. apply Qlt_irrefl. }
    rewrite Hzero. change (Qabs 0) with 0%Q. ring.
Qed.

Lemma shapes_data3 : shapes data3 3 2.
Proof.
  split; try done; repeat constructor.
Defined.

Lemma transport_fdm_inner_value_witness :
  ∃ data' w, transport_fdm_inner data3 [1] = (data', Ok tt)
    ∧ result data' !! 1%nat ≫= (.!! 0%nat) = Some w ∧ (w == 2)%Q.
Proof.
  destruct (transport_fdm_inner_value data3 3 2 [1] shapes_data3 eq_refl)
    as (data' & Hrun & _ & _ & Hval).
  { repeat constructor; unfold valid; simpl; lia. }
  destruct (Hval 1 0%nat) as (w & Hw & _ & _ & Hpos & _); [by left | lia |].
  exists data', w. split_and!; [done | exact Hw |].
  rewrite Hpos; reflexivity.
Defined.


(** ** Collisions *)

Lemma zip_with_map_same {A B C D} (f : B → C → D) (g : A → B) (h : A → C) l :
  zip_with f (map g l) (map h l) = map (λ x, f (g x) (h x)) l.
Proof. induction l as [|x l IH]; simpl; [done | by rewrite IH]. Qed.

Section Collisions.
Context (data : Data) (V : nat) (Hcs : collision_shapes data V).

Lemma col_column_spec (j : Z) :
  0 ≤ j < 4 → col_column (col data) j = Ok (map (λ q, at_ 0 q j) (col data)).
Proof.
  intros Hj. apply mapM_map. intros q Hq. apply item_valid.
  pose proof (col_quadruples _ _ Hcs) as Hc.
  eapply Forall_forall in Hc as [Hl _]; [|done]. unfold valid. lia.
Qed.

Lemma take_quadruple_column (u : row) (j : Z) :
  length u = V → 0 ≤ j < 4 →
  take u (map (λ q, at_ 0 q j) (col data))
  = Ok (map (λ q, at_ 0%Q u (at_ 0 q j)) (col data)).
Proof.
  intros Hu Hj. rewrite (take_valid 0%Q); [by rewrite map_map|].
  apply Forall_map, Forall_forall. intros q Hq. simpl.
  pose proof (col_quadruples _ _ Hcs) as Hc.
  eapply Forall_forall in Hc as [Hl Hv]; [|done].
  eapply Forall_forall in Hv; [rewrite Hu; exact Hv|].
  apply at_elem_of. unfold valid. lia.
Qed.

Lemma euler_row_spec (u : row) :
  length u = V → euler_row data u = Ok (euler_update data u).
Proof.
  intros Hu. unfold euler_row.
  rewrite !col_column_spec by lia. cbn [mbind outcome_bind].
  rewrite !take_quadruple_column by (done || lia). cbn [mbind outcome_bind].
  unfold col_factor_of. rewrite !zip_with_map_same.
  fold (collision_factor data u).
  unfold dot. rewrite (mapM_map _ (λ r, foldr Qplus 0%Q
                                     (zip_with Qmult r (collision_factor data u)))).
  2:{ intros r Hr. rewrite bool_decide_eq_true_2; [done|].
      pose proof (col_mat_cols _ _ Hcs) as Hc.
      eapply Forall_forall in Hc; [|done]. simpl in Hc.
      unfold collision_factor. by rewrite length_map. }
  cbn [mbind outcome_bind]. unfold iadd_row. rewrite fit_row_same.
  - done.
  - rewrite length_map, Hu. apply (col_mat_rows _ _ Hcs).
Qed.

Lemma euler_update_length (u : row) :
  length u = V → length (euler_update data u) = V.
Proof.
  intros Hu. unfold euler_update, apply_matrix.
  rewrite length_zip_with, length_map, (col_mat_rows _ _ Hcs). lia.
Qed.

End Collisions.

Lemma euler_point_spec data P V p :
  collision_shapes data V →
  length (state data) = P → Forall (λ r, length r = V) (state data) →
  valid P p →
  euler_point data p
  = (set_state (<[pos_of P p := euler_update data (at_ [] (state data) p)]>
                  (state data)) data, Ok tt).
Proof.
  intros Hcs HP Hcols Hp. unfold euler_point.
  rewrite HP, norm_index_valid by done. cbn [mbind outcome_bind].
  rewrite (item_valid []) by (by rewrite HP). cbn [mbind outcome_bind].
  rewrite (euler_row_spec data V); [done | done |].
  eapply Forall_forall in Hcols; [exact Hcols|]. apply at_elem_of. by rewrite HP.
Qed.

Lemma occurrences_cons n i idx k :
  occurrences n (i :: idx) k
  = ((if bool_decide (pos_of n i = k) then 1 else 0) + occurrences n idx k)%nat.
Proof. unfold occurrences. simpl. by destruct (bool_decide _). Qed.

Lemma occurrences_zero n idx k :
  k ∉ map (pos_of n) idx → occurrences n idx k = 0%nat.
Proof.
  induction idx as [|i idx IH]; intros Hk; [done|].
  simpl in Hk. apply not_elem_of_cons in Hk as [Hne Hk].
  rewrite occurrences_cons, IH by done.
  by rewrite bool_decide_eq_false_2.
Qed.

Lemma occurrences_one n idx k :
  NoDup (map (pos_of n) idx) → k ∈ map (pos_of n) idx →
  occurrences n idx k = 1%nat.
Proof.
  induction idx as [|i idx IH]; simpl; intros Hnd Hk; [inversion Hk|].
  apply NoDup_cons in Hnd as [Hi Hnd]. rewrite occurrences_cons.
  case_bool_decide as Hp.
  - subst k. by rewrite occurrences_zero.
  - apply elem_of_cons in Hk as [-> | Hk]; [done|]. by rewrite IH.
Qed.

Lemma euler_scheme_run data P V aff :
  collision_shapes data V →
  length (state data) = P → Forall (λ r, length r = V) (state data) →
  Forall (valid P) aff →
  ∃ s', euler_scheme data aff = (set_state s' data, Ok tt)
    ∧ length s' = P ∧ Forall (λ r, length r = V) s'
    ∧ ∀ k u, state data !! k = Some u →
        s' !! k = Some (Nat.iter (occurrences P aff k) (euler_update data) u).
Proof.
  intros Hcs HP Hcols Haff. revert data Hcs HP Hcols.
  induction Haff as [|p aff Hp Haff IH]; intros data Hcs HP Hcols.
  - exists (state data). split_and!; try done. by destruct data.
  - cbn [euler_scheme]. rewrite (euler_point_spec data P V) by done.
    set (u0 := at_ [] (state data) p).
    set (s1 := <[pos_of P p := euler_update data u0]> (state data)).
    assert (state data !! pos_of P p = Some u0) as Hu0.
    { rewrite <- HP. apply at_lookup. by rewrite HP. }
    assert (length u0 = V) as Hlu0.
    { eapply Forall_forall in Hcols; [exact Hcols|]. by eapply list_elem_of_lookup_2. }
    destruct (IH (set_state s1 data)) as (s' & Hrun & Hl & Hc & Hrows).
    { destruct Hcs. by split. }
    { unfold s1. cbn [state set_state]. by rewrite length_insert. }
    { unfold s1. cbn [state set_state]. apply Forall_insert; [done|].
      by apply (euler_update_length data V). }
    exists s'. split_and!; try done.
    intros k u Hk. rewrite occurrences_cons.
    change (euler_update (set_state s1 data)) with (euler_update data) in Hrows.
    cbn [state set_state] in Hrows. case_bool_decide as Hpk.
    + subst k. assert (u = u0) as -> by congruence.
      rewrite (Hrows _ (euler_update data u0)).
      * by rewrite Nat.iter_succ_r.
      * unfold s1. apply list_lookup_insert_eq. by eapply lookup_lt_Some.
    + apply Hrows. unfold s1. by rewrite list_lookup_insert_ne.
Qed.

(** C3: on a well-shaped state with well-shaped collision data and legal
    point indices, [euler_scheme] returns; a row that no affected point
    addresses is left as it was, and a row addressed once is replaced by the
    row plus [col_mat] applied to the vector of the factors
    [u[i0]*u[i2] - u[i1]*u[i3]], one per quadruple [(i0, i1, i2, i3)].  (A row
    addressed n times receives n such steps, one after the other.) *)
Theorem euler_scheme_rows data P V aff :
  shapes data P V → collision_shapes data V → Forall (valid P) aff →
  ∃ data', euler_scheme data aff = (data', Ok tt)
    ∧ result data' = result data ∧ t data' = t data
    ∧ length (state data') = P
    ∧ (∀ k u, state data !! k = Some u →
         state data' !! k
           = Some (Nat.iter (occurrences P aff k) (euler_update data) u)
         ∧ (¬ addresses P aff k → state data' !! k = Some u)
         ∧ (addresses P aff k → NoDup (map (pos_of P) aff) →
            state data' !! k = Some (euler_update data u)))
    ∧ (∀ u, euler_update data u
            = zip_with Qplus u
                (apply_matrix (col_mat data) (collision_factor data u)))
    ∧ (∀ u j i0 i1 i2 i3, col data !! j = Some [i0; i1; i2; i3] →
         collision_factor data u !! j
           = Some (at_ 0 u i0 * at_ 0 u i2 - at_ 0 u i1 * at_ 0 u i3)%Q).
Proof.
  intros Hsh Hcs Haff.
  destruct (euler_scheme_run data P V aff) as (s' & Hrun & Hl & Hc & Hrows);
    [done | apply (state_rows _ _ _ Hsh) | apply (state_cols _ _ _ Hsh) | done |].
  exists (set_state s' data). split_and!; try done.
  - intros k u Hk. cbn [state set_state]. rewrite (Hrows k u Hk). split_and!.
    + done.
    + intros Hna. rewrite occurrences_zero; [done|]. by rewrite <- addresses_map.
    + intros Ha Hnd. rewrite occurrences_one; [done | done |].
      by rewrite <- addresses_map.
  - intros u j i0 i1 i2 i3 Hj. unfold collision_factor.
    rewrite map_fmap, list_lookup_fmap, Hj. done.
Qed.

Lemma collision_shapes_data3 : collision_shapes data3 2.
Proof.
  split; try done; repeat constructor; unfold valid; simpl; lia.
Defined.

Lemma euler_scheme_rows_witness :
  ∃ data', euler_scheme data3 [1] = (data', Ok tt)
    ∧ state data' !! 0%nat = Some [1; 2]%Q
    ∧ state data' !! 1%nat = Some (euler_update data3 [3; 4]%Q).
Proof.
  destruct (euler_scheme_rows data3 3 2 [1] shapes_data3 collision_shapes_data3)
    as (data' & Hrun & _ & _ & _ & Hrows & _).
  { repeat constructor; unfold valid; simpl; lia. }
  exists data'. split; [done|]. split.
  - destruct (Hrows 0%nat [1; 2]%Q eq_refl) as (_ & Hframe & _).
    apply Hframe. intros (i & Hi & _ & Hp).
    apply list_elem_of_singleton in Hi as ->. discriminate Hp.
  - destruct (Hrows 1%nat [3; 4]%Q eq_refl) as (_ & _ & Hone).
    apply Hone.
    + exists 1. split_and!; [by left | unfold valid; simpl; lia | reflexivity].
    + repeat constructor. intros Hin. inversion Hin.
Defined.

(** ** Transport through the geometry *)

Lemma no_transport_keeps_row aff k : keeps_row (λ d, no_transport d aff) k.
Proof. intros d0 d1 o [= <- _]. done. Qed.

Lemma write_result_frame d0 d1 o m k :
  write_result d0 m = (d1, o) →
  (∀ r, m = Ok r → r !! k = result d0 !! k) →
  result d1 !! k = result d0 !! k ∧ state d1 = state d0.
Proof.
  unfold write_result. destruct m as [r|e]; intros [= <- _] Hm; [|done].
  split; [|done]. cbn [result set_result]. by apply Hm.
Qed.

Lemma transport_fdm_inner_keeps_row aff k :
  (∀ n, ¬ addresses n aff k) → keeps_row (λ d, transport_fdm_inner d aff) k.
Proof.
  intros Hna d0 d2 o. unfold transport_fdm_inner.
  case_bool_decide; [by intros [= <- _]|].
  unfold seq_action.
  destruct (write_result d0 _) as [d1 [[]|e1]] eqn:H1.
  - intros H2.
    apply write_result_frame with (k := k) in H1 as [Hr1 Hs1].
    2:{ intros r Hr. apply bind_Ok in Hr as (out & _ & Hset).
        eapply set_rows_frame; [done | apply Hna]. }
    apply write_result_frame with (k := k) in H2 as [Hr2 Hs2].
    2:{ intros r Hr. apply bind_Ok in Hr as (cur & _ & Hr).
        apply bind_Ok in Hr as (inflow & _ & Hr).
        apply bind_Ok in Hr as (sum & _ & Hset).
        eapply set_rows_frame; [done | apply Hna]. }
    split; congruence.
  - intros [= <- _].
    apply write_result_frame with (k := k) in H1 as [Hr1 Hs1].
    2:{ intros r Hr. apply bind_Ok in Hr as (out & _ & Hset).
        eapply set_rows_frame; [done | apply Hna]. }
    split; congruence.
Qed.

Lemma for_each_keeps_row (rs : list Rule.t) (body : Rule.t → action) k :
  (∀ r, r ∈ rs → keeps_row (body r) k) → keeps_row (for_each rs body) k.
Proof.
  induction rs as [|r rs IH]; intros Hall d0 d1 o; cbn [for_each].
  - by intros [= <- _].
  - unfold seq_action. destruct (body r d0) as [d' [[]|e]] eqn:Hb.
    + intros Hrest.
      destruct (Hall r (list_elem_of_here _ _) _ _ _ Hb) as [Hr Hs].
      destruct (IH (λ r' Hr', Hall r' (list_elem_of_further _ _ _ Hr')) _ _ _ Hrest)
        as [Hr' Hs'].
      split; congruence.
    + intros [= <- _]. exact (Hall r (list_elem_of_here _ _) _ _ _ Hb).
Qed.

Lemma fit_rows_lookup dst src s k u w :
  fit_rows dst src = Ok s → dst !! k = Some u → src !! k = Some w →
  ∃ x, fit_row u w = Ok x ∧ s !! k = Some x.
Proof.
  revert src s k. induction dst as [|old dst IH]; intros [|new src] s k; simpl;
    try done.
  intros Hf. apply bind_Ok in Hf as (r & Hr & Hf).
  apply bind_Ok in Hf as (rest & Hrest & [= <-]).
  destruct k as [|k]; simpl.
  - intros [= <-] [= <-]. eauto.
  - by apply IH.
Qed.

Lemma copy_into_lookup dst src s k u w :
  copy_into dst src = Ok s → dst !! k = Some u → src !! k = Some w →
  length w = length u → s !! k = Some w.
Proof.
  unfold copy_into. intros Hc Hu Hw Hl.
  assert (fit_row u w = Ok w) as Hfit by (by apply fit_row_same).
  case_bool_decide as Hlen.
  - destruct (fit_rows_lookup _ _ _ _ _ _ Hc Hu Hw) as (x & Hx & Hs). congruence.
  - destruct src as [|r [|]]; try done.
    destruct k as [|k]; [|done]. injection Hw as ->.
    apply mapM_Ok_inv in Hc.
    destruct (Forall2_lookup_l _ _ _ _ _ Hc Hu) as (y & Hy & Hfy). congruence.
Qed.

(** C9 (as the code has it): if the transport of every rule leaves row [k] of
    the result buffer and of the state alone (as [no_transport] does for every
    row, and the inner-point transport for every row it does not own), then
    after [Geometry.transport] row [k] of the state is what row [k] of the
    result buffer was before the call; it is the state's own former row
    exactly when the two agreed on entry. *)
Theorem transport_constant_rows (g : Geometry.t) d d' k u w :
  Geometry.transport g d = (d', Ok tt) →
  (∀ r, r ∈ Geometry.rules g → keeps_row (Rule.transport r) k) →
  state d !! k = Some u → result d !! k = Some w → length w = length u →
  state d' !! k = Some w ∧ (w = u ↔ state d' !! k = state d !! k).
Proof.
  intros Hrun Hkeep Hu Hw Hl. unfold Geometry.transport, seq_action in Hrun.
  destruct (for_each _ _ d) as [d1 [[]|e]] eqn:Hloop; [|done].
  apply for_each_keeps_row in Hkeep. destruct (Hkeep _ _ _ Hloop) as [Hr Hs].
  destruct (copy_into (state d1) (result d1)) as [s|e] eqn:Hcopy; [|done].
  injection Hrun as <-. cbn [state set_state].
  assert (s !! k = Some w) as Hsk.
  { eapply copy_into_lookup; [done | | | done]; congruence. }
  split; [done|]. rewrite Hsk, Hu. split; congruence.
Qed.

Lemma transport_constant_rows_witness :
  state (fst (Geometry.transport geometry3 data3)) !! 0%nat = Some [1; 2]%Q.
Proof.
  refine (proj1 (transport_constant_rows geometry3 data3
                   (fst (Geometry.transport geometry3 data3)) 0 [1; 2]%Q [1; 2]%Q
                   _ _ eq_refl eq_refl eq_refl)).
  - vm_compute. reflexivity.
  - intros r Hr. apply list_elem_of_In in Hr. simpl in Hr.
    destruct Hr as [<- | [<- | [<- | []]]].
    + apply no_transport_keeps_row.
    + apply transport_fdm_inner_keeps_row. intros n (i & Hi & Hv & Hp).
      apply list_elem_of_singleton in Hi as ->. unfold valid, pos_of in *.
      destruct (decide (n = 1)%nat) as [-> | Hn]; [lia|].
      rewrite Z.mod_small in Hp by lia. discriminate Hp.
    + apply no_transport_keeps_row.
Defined.

(** C9 as claimed fails: with a result buffer that does not hold the state
    on entry, the transport stage overwrites the rows of constant points. *)
Lemma transport_constant_rows_counterexample :
  left_end ∈ Geometry.rules geometry3
  ∧ Rule.affected_points left_end = [0]
  ∧ Rule.transport left_end = (λ d, no_transport d [0])
  ∧ ∃ d', Geometry.transport geometry3 data3_fresh = (d', Ok tt)
      ∧ state data3_fresh !! 0%nat = Some [1; 2]%Q
      ∧ state d' !! 0%nat = Some [0; 0]%Q.
Proof.
  split_and!; [by left | done | done |].
  eexists. split; [vm_compute; reflexivity | split; reflexivity].
Qed.

(** In any other dimension the inner-point transport refuses to run and
    writes nothing. *)
Lemma transport_fdm_inner_dimension data aff :
  p_dim data ≠ 1 →
  transport_fdm_inner data aff = (data, Raise NotImplementedError).
Proof. intros Hd. unfold transport_fdm_inner. by rewrite bool_decide_eq_true_2. Qed.

(** * Further properties of the engine *)

(** ** What the transport and collision operators leave alone *)

Lemma store_rows_length (a : array) ks vals a' :
  store_rows a ks vals = Ok a' → length a' = length a.
Proof.
  revert a vals. induction ks as [|k ks IH]; intros a [|v vals]; simpl; try done.
  - by intros [= <-].
  - destruct (a !! k) as [old|]; [|done].
    destruct (fit_row old v) as [v'|]; [|done]. simpl.
    intros Hst. rewrite (IH _ _ Hst). apply length_insert.
Qed.

Lemma set_rows_length (a : array) idx vals a' :
  set_rows a idx vals = Ok a' → length a' = length a.
Proof.
  unfold set_rows. intros Hs. apply bind_Ok in Hs as (ks & _ & Hs).
  by eapply store_rows_length.
Qed.

(** X1: However [transport_fdm_inner] ends, it has touched nothing but the
    result buffer, has kept the number of its rows, and has left every row
    alone that [affected_points] does not address. *)
Theorem transport_fdm_inner_frame data aff d' o :
  transport_fdm_inner data aff = (d', o) →
  ∃ r, d' = set_result r data
    ∧ length r = length (result data)
    ∧ ∀ k, ¬ addresses (length (result data)) aff k → r !! k = result data !! k.
Proof.
  unfold transport_fdm_inner. case_bool_decide.
  { intros [= <- _]. exists (result data). by destruct data. }
  unfold seq_action, write_result.
  destruct (transport_outflow_remains data aff ≫= _) as [r1|e1] eqn:H1.
  2:{ intros [= <- _]. exists (result data). by destruct data. }
  apply bind_Ok in H1 as (out & _ & H1).
  pose proof (set_rows_length _ _ _ _ H1) as Hl1.
  cbn [result set_result].
  destruct (take r1 aff ≫= _) as [r2|e2] eqn:H2.
  - intros [= <- _].
    apply bind_Ok in H2 as (cur & _ & H2).
    apply bind_Ok in H2 as (inflow & _ & H2).
    apply bind_Ok in H2 as (sum & _ & H2).
    pose proof (set_rows_length _ _ _ _ H2) as Hl2.
    exists r2. split_and!; [done | congruence |].
    intros k Hk. rewrite (set_rows_frame _ _ _ _ _ H2) by (by rewrite Hl1).
    by apply (set_rows_frame _ _ _ _ _ H1).
  - intros [= <- _]. exists r1. split_and!; [done | done |].
    intros k Hk. by apply (set_rows_frame _ _ _ _ _ H1).
Qed.

Lemma transport_fdm_inner_frame_witness :
  ∃ r, fst (transport_fdm_inner data3 [1]) = set_result r data3
    ∧ r !! 0%nat = Some [1; 2]%Q.
Proof.
  destruct (transport_fdm_inner_frame data3 [1]
              (fst (transport_fdm_inner data3 [1]))
              (snd (transport_fdm_inner data3 [1])))
    as (r & Hr & _ & Hframe).
  - apply surjective_pairing.
  - exists r. split; [done|]. rewrite Hframe; [reflexivity|].
    intros (i & Hi & _ & Hp). apply list_elem_of_singleton in Hi as ->.
    discriminate Hp.
Defined.

Lemma euler_point_frame data p d' o :
  euler_point data p = (d', o) →
  ∃ s, d' = set_state s data ∧ length s = length (state data)
    ∧ ∀ k, ¬ addresses (length (state data)) [p] k → s !! k = state data !! k.
Proof.
  unfold euler_point.
  destruct (norm_index (length (state data)) p) as [k0|e] eqn:Hn; simpl.
  2:{ intros [= <- _]. exists (state data). by destruct data. }
  destruct (item (state data) p) as [sp|e]; simpl.
  2:{ intros [= <- _]. exists (state data). by destruct data. }
  destruct (euler_row data sp) as [new|e]; simpl.
  2:{ intros [= <- _]. exists (state data). by destruct data. }
  intros [= <- _]. eexists. split_and!; [done | apply length_insert |].
  intros k Hk. apply list_lookup_insert_ne. intros ->. apply Hk.
  apply norm_index_Ok in Hn as [Hv ->]. exists p. split_and!; [by left | done | done].
Qed.

(** X2: However [euler_scheme] ends, it has touched nothing but [state], has
    kept the number of its rows, and has left every row alone that
    [affected_points] does not address. *)
Theorem euler_scheme_frame data aff d' o :
  euler_scheme data aff = (d', o) →
  ∃ s, d' = set_state s data
    ∧ length s = length (state data)
    ∧ ∀ k, ¬ addresses (length (state data)) aff k → s !! k = state data !! k.
Proof.
  revert data. induction aff as [|p aff IH]; intros data; cbn [euler_scheme].
  { intros [= <- _]. exists (state data). by destruct data. }
  destruct (euler_point data p) as [d1 [[]|e]] eqn:Hp.
  - intros Hrest.
    apply euler_point_frame in Hp as (s1 & -> & Hl1 & Hf1).
    apply IH in Hrest as (s & -> & Hl & Hf). cbn [state set_state] in *.
    exists s. split_and!; [done | congruence |].
    intros k Hk. rewrite Hf, Hf1.
    + done.
    + intros (i & Hi & Hv & Hpos). apply list_elem_of_singleton in Hi as ->.
      apply Hk. exists p. split_and!; [by left | done | done].
    + rewrite Hl1. intros (i & Hi & Hv & Hpos). apply Hk. exists i.
      split_and!; [by right | done | done].
  - intros [= <- _].
    apply euler_point_frame in Hp as (s1 & -> & Hl1 & Hf1).
    exists s1. split_and!; [done | done |].
    intros k Hk. apply Hf1. intros (i & Hi & Hv & Hpos).
    apply list_elem_of_singleton in Hi as ->.
    apply Hk. exists p. split_and!; [by left | done | done].
Qed.

Lemma euler_scheme_frame_witness :
  ∃ s, fst (euler_scheme data3 [1]) = set_state s data3
    ∧ s !! 2%nat = Some [5; 6]%Q.
Proof.
  destruct (euler_scheme_frame data3 [1]
              (fst (euler_scheme data3 [1])) (snd (euler_scheme data3 [1])))
    as (s & Hs & _ & Hframe).
  - apply surjective_pairing.
  - exists s. split; [done|]. rewrite Hframe; [reflexivity|].
    intros (i & Hi & _ & Hp). apply list_elem_of_singleton in Hi as ->.
    discriminate Hp.
Defined.

(** ** The stability condition *)

Lemma at_nonneg (r : row) i :
  (∀ x, x ∈ r → (0 <= x)%Q) → (0 <= at_ 0%Q r i)%Q.
Proof.
  intros Hr. unfold at_.
  destruct (nth_in_or_default (pos_of (length r) i) r 0%Q) as [Hin | ->].
  - apply Hr. by apply list_elem_of_In.
  - apply Qle_refl.
Qed.

Lemma entry_nonneg (a : array) p v :
  all_nonneg a = true → (0 <= entry a p v)%Q.
Proof.
  intros Ha. rewrite all_nonneg_true in Ha. unfold entry. apply at_nonneg.
  intros x Hx. unfold at_ in Hx.
  destruct (nth_in_or_default (pos_of (length a) p) a []) as [Hin | Heq].
  - eapply Ha; [|exact Hx]. by apply list_elem_of_In.
  - rewrite Heq in Hx. inversion Hx.
Qed.

Lemma inflow_value_nonneg data p v :
  all_nonneg (state data) = true → (0 <= flow_fraction data v)%Q →
  (0 <= inflow_value data p v)%Q.
Proof.
  intros Hs Hf.
  assert (0 <= inflow_fraction data v)%Q as Hi.
  { assert (inflow_fraction data v == flow_fraction data v)%Q as ->; [|done].
    unfold inflow_fraction, flow_fraction, Qdiv. ring. }
  unfold inflow_value.
  destruct (Qltb 0 (pv0 data v)).
  - apply Qmult_le_0_compat; [done | by apply entry_nonneg].
  - destruct (Qltb (pv0 data v) 0); [|apply Qle_refl].
    apply Qmult_le_0_compat; [done | by apply entry_nonneg].
Qed.

(** X3: If no velocity moves more than one cell per time step
    ([0 <= |pv0| * dt / dp <= 1] for every velocity) and neither the state nor
    the result buffer holds a negative entry, then the inner-point transport
    returns and the result buffer still holds no negative entry. *)
Theorem transport_fdm_inner_nonneg data P V aff :
  shapes data P V → p_dim data = 1 →
  Forall (λ p, valid P p ∧ valid P (p + 1) ∧ valid P (p - 1)) aff →
  (∀ v : nat, (v < V)%nat →
     (0 <= flow_fraction data (Z.of_nat v))%Q
     ∧ (flow_fraction data (Z.of_nat v) <= 1)%Q) →
  all_nonneg (state data) = true → all_nonneg (result data) = true →
  ∃ d', transport_fdm_inner data aff = (d', Ok tt)
    ∧ all_nonneg (result d') = true.
Proof.
  intros Hsh Hdim Haff Hcfl Hs Hr.
  destruct (transport_fdm_inner_run data P V aff)
    as (r2 & Hrun & Hl2 & Hc2 & Hlook); try done.
  { eapply Forall_impl; [exact Haff|]. by intros p (? & ? & ?). }
  { eapply Forall_impl; [exact Haff|]. by intros p (? & ? & ?). }
  { eapply Forall_impl; [exact Haff|]. by intros p (? & ? & ?). }
  exists (set_result r2 data). split; [done|]. cbn [result set_result].
  apply all_nonneg_true. intros row x Hrow Hx.
  apply list_elem_of_lookup in Hrow as [k Hk].
  destruct (Hlook k) as [Hout Hin].
  destruct (decide (k ∈ map (pos_of P) aff)) as [Hadr | Hna].
  - apply list_elem_of_In, in_map_iff in Hadr as (p & Hp & Hpin).
    apply list_elem_of_In in Hpin.
    destruct (Hin p Hpin Hp) as (o & Ho & Hent).
    assert (row = o) as -> by congruence.
    apply list_elem_of_lookup in Hx as [c Hc].
    assert (c < V)%nat as HcV.
    { eapply Forall_forall in Hc2; [|by eapply list_elem_of_lookup_2].
      apply lookup_lt_Some in Hc. simpl in Hc2. lia. }
    rewrite (Hent c HcV) in Hc. injection Hc as <-.
    destruct (Hcfl c HcV) as [Hf0 Hf1].
    apply (Qplus_le_compat 0 _ 0 _).
    + apply Qmult_le_0_compat; [|by apply entry_nonneg].
      by apply (proj1 (Qle_minus_iff _ _)).
    + by apply inflow_value_nonneg.
  - rewrite all_nonneg_true in Hr. apply (Hr row x); [|done].
    eapply list_elem_of_lookup_2. rewrite <- Hout; [done|].
    rewrite addresses_map; [done|].
    eapply Forall_impl; [exact Haff|]. by intros p (? & ? & ?).
Qed.

Lemma flow_fraction_data3 (v : nat) :
  (v < 2)%nat →
  (0 <= flow_fraction data3 (Z.of_nat v))%Q
  ∧ (flow_fraction data3 (Z.of_nat v) <= 1)%Q.
Proof. intros Hv. destruct v as [|[|v]]; [by vm_compute | by vm_compute | lia]. Defined.

Lemma transport_fdm_inner_nonneg_witness :
  ∃ d', transport_fdm_inner data3 [1] = (d', Ok tt)
    ∧ all_nonneg (result d') = true.
Proof.
  apply (transport_fdm_inner_nonneg data3 3 2 [1] shapes_data3 eq_refl).
  - repeat constructor; unfold valid; simpl; lia.
  - apply flow_fraction_data3.
  - reflexivity.
  - reflexivity.
Defined.

(** ** Order of the collision loop *)

(** Colliding a list of points in two parts, one after the other, is
    colliding the whole list; an exception in the first part ends the call. *)
Lemma euler_scheme_app data (a b : list Z) :
  euler_scheme data (a ++ b) =
    match euler_scheme data a with
    | (d', Ok _) => euler_scheme d' b
    | (d', Raise e) => (d', Raise e)
    end.
Proof.
  revert data. induction a as [|p a IH]; intros data; cbn [euler_scheme app].
  - done.
  - destruct (euler_point data p) as [d1 [[]|e]]; [apply IH | done].
Qed.

Lemma occurrences_Permutation n (l l' : list Z) k :
  l ≡ₚ l' → occurrences n l k = occurrences n l' k.
Proof.
  induction 1 as [|x l l' _ IH|x y l|l l' l'' _ IH1 _ IH2].
  - done.
  - by rewrite !occurrences_cons, IH.
  - rewrite !occurrences_cons. lia.
  - by rewrite IH1.
Qed.

(** X4: The result of the collision step does not depend on the order in which
    the affected points are listed. *)
Theorem euler_scheme_Permutation data P V (aff aff' : list Z) :
  shapes data P V → collision_shapes data V → Forall (valid P) aff →
  aff ≡ₚ aff' →
  euler_scheme data aff' = euler_scheme data aff
  ∧ snd (euler_scheme data aff) = Ok tt.
Proof.
  intros Hsh Hcs Haff Hperm.
  destruct (euler_scheme_run data P V aff) as (s & Hrun & Hl & _ & Hrows);
    [done | apply (state_rows _ _ _ Hsh) | apply (state_cols _ _ _ Hsh) | done |].
  destruct (euler_scheme_run data P V aff') as (s' & Hrun' & Hl' & _ & Hrows');
    [done | apply (state_rows _ _ _ Hsh) | apply (state_cols _ _ _ Hsh)
    | by rewrite <- Hperm |].
  rewrite Hrun, Hrun'. split; [|done]. do 2 f_equal.
  apply list_eq. intros k.
  destruct (state data !! k) as [u|] eqn:Hu.
  - rewrite (Hrows k u Hu), (Hrows' k u Hu).
    by rewrite (occurrences_Permutation P aff aff').
  - apply lookup_ge_None in Hu. rewrite (state_rows _ _ _ Hsh) in Hu.
    rewrite !lookup_ge_None_2 by lia. done.
Qed.

Lemma euler_scheme_Permutation_witness :
  euler_scheme data3 [2; 0; 1] = euler_scheme data3 [0; 1; 2].
Proof.
  apply (euler_scheme_Permutation data3 3 2 [0; 1; 2] [2; 0; 1]
           shapes_data3 collision_shapes_data3).
  - repeat constructor; unfold valid; simpl; lia.
  - change [2; 0; 1] with ([2] ++ [0; 1]).
    change [0; 1; 2] with ([0; 1] ++ [2]). apply Permutation_app_comm.
Defined.

Lemma euler_point_invalid data p :
  ¬ valid (length (state data)) p → euler_point data p = (data, Raise IndexError).
Proof.
  intros Hp. unfold euler_point, norm_index.
  rewrite !bool_decide_eq_false_2; [done | |]; unfold valid in Hp; lia.
Qed.

(** X5: A point index outside the grid stops the collision loop with
    [IndexError]; the points listed before it have been collided already and
    stay so. *)
Theorem euler_scheme_bad_index data P V (a b : list Z) p :
  shapes data P V → collision_shapes data V → Forall (valid P) a →
  ¬ valid P p →
  ∃ d1, euler_scheme data a = (d1, Ok tt)
    ∧ euler_scheme data (a ++ p :: b) = (d1, Raise IndexError).
Proof.
  intros Hsh Hcs Ha Hp.
  destruct (euler_scheme_run data P V a) as (s & Hrun & Hl & _ & _);
    [done | apply (state_rows _ _ _ Hsh) | apply (state_cols _ _ _ Hsh) | done |].
  exists (set_state s data). split; [done|].
  rewrite euler_scheme_app, Hrun. cbn [euler_scheme].
  rewrite euler_point_invalid; [done|]. cbn [state set_state]. by rewrite Hl.
Qed.

Lemma euler_scheme_bad_index_witness :
  ∃ d1, euler_scheme data3 [1] = (d1, Ok tt)
    ∧ euler_scheme data3 ([1] ++ 3 :: [0]) = (d1, Raise IndexError).
Proof.
  apply (euler_scheme_bad_index data3 3 2 [1] [0] 3
           shapes_data3 collision_shapes_data3).
  - repeat constructor; unfold valid; simpl; lia.
  - unfold valid. simpl. lia.
Defined.

(** ** The two buffers across time steps *)

Lemma fit_rows_same (dst src s : array) :
  fit_rows dst src = Ok s → Forall2 (λ r x, length r = length x) src s → s = src.
Proof.
  revert src s. induction dst as [|old dst IH]; intros [|new src] s; simpl;
    try done.
  - by intros [= <-].
  - intros Hf. apply bind_Ok in Hf as (r & Hr & Hf).
    apply bind_Ok in Hf as (rest & Hrest & [= <-]).
    intros Hlen. apply Forall2_cons in Hlen as [Hl Hlen].
    f_equal; [|by apply IH].
    unfold fit_row in Hr. case_bool_decide as Hlo; [congruence|].
    destruct new as [|x [|]]; try done. injection Hr as <-.
    rewrite length_replicate in Hl. simpl in *. congruence.
Qed.

(** X6: After [Geometry.transport] has returned, the state is a copy of the
    result buffer, provided the two have the same shape. *)
Theorem transport_buffers_agree (g : Geometry.t) d d' :
  Geometry.transport g d = (d', Ok tt) →
  Forall2 (λ r x, length r = length x) (result d') (state d') →
  state d' = result d'.
Proof.
  unfold Geometry.transport, seq_action. intros Hrun.
  destruct (for_each _ _ d) as [d1 [[]|e]]; [|done].
  destruct (copy_into (state d1) (result d1)) as [s|e] eqn:Hcopy; [|done].
  injection Hrun as <-. cbn [state result set_state]. intros Hlen.
  unfold copy_into in Hcopy. case_bool_decide as Hl.
  - by eapply fit_rows_same.
  - destruct (result d1) as [|r0 [|]]; try done.
    apply mapM_Ok_inv in Hcopy. apply Forall2_length in Hcopy, Hlen.
    simpl in *. congruence.
Qed.

Lemma transport_buffers_agree_witness :
  state (fst (Geometry.transport geometry3 data3_fresh))
  = result (fst (Geometry.transport geometry3 data3_fresh)).
Proof.
  apply (transport_buffers_agree geometry3 data3_fresh).
  - vm_compute. reflexivity.
  - vm_compute. repeat constructor.
Defined.

Lemma no_collisions_keeps_row aff k : keeps_row (λ d, no_collisions d aff) k.
Proof. intros d0 d1 o [= <- _]. done. Qed.

Lemma euler_scheme_keeps_row aff k :
  (∀ n, ¬ addresses n aff k) → keeps_row (λ d, euler_scheme d aff) k.
Proof.
  intros Hna. induction aff as [|p aff IH]; intros d0 d2 o; cbn [euler_scheme].
  { by intros [= <- _]. }
  assert (∀ n, ¬ addresses n [p] k) as Hp.
  { intros n (i & Hi & Hv & Hpos). apply list_elem_of_singleton in Hi as ->.
    apply (Hna n). exists p. split_and!; [by left | done | done]. }
  assert (∀ n, ¬ addresses n aff k) as Hrest.
  { intros n (i & Hi & Hv & Hpos). apply (Hna n). exists i.
    split_and!; [by right | done | done]. }
  destruct (euler_point d0 p) as [d1 [[]|e]] eqn:Hpt.
  - intros Hrun. apply euler_point_frame in Hpt as (s1 & -> & _ & Hf1).
    destruct (IH Hrest _ _ _ Hrun) as [Hr Hs]. cbn [state result set_state] in *.
    split; [done|]. rewrite Hs. by apply Hf1.
  - intros [= <- _]. apply euler_point_frame in Hpt as (s1 & -> & _ & Hf1).
    cbn [state result set_state]. split; [done|]. by apply Hf1.
Qed.

Lemma transport_keeps_agreement (g : Geometry.t) k u d d' o :
  (∀ r, r ∈ Geometry.rules g → keeps_row (Rule.transport r) k) →
  state d !! k = Some u → result d !! k = Some u →
  Geometry.transport g d = (d', o) →
  state d' !! k = Some u ∧ result d' !! k = Some u.
Proof.
  intros Hkeep Hs Hr. unfold Geometry.transport, seq_action.
  destruct (for_each _ _ d) as [d1 [[]|e]] eqn:Hloop.
  - apply for_each_keeps_row in Hkeep. destruct (Hkeep _ _ _ Hloop) as [Hr1 Hs1].
    destruct (copy_into (state d1) (result d1)) as [s|e] eqn:Hcopy.
    + intros [= <- _]. cbn [state result set_state]. split; [|congruence].
      eapply copy_into_lookup; [done | | | done]; congruence.
    + intros [= <- _]. split; congruence.
  - intros [= <- _]. apply for_each_keeps_row in Hkeep.
    destruct (Hkeep _ _ _ Hloop) as [Hr1 Hs1]. split; congruence.
Qed.

Lemma step_keeps_agreement (g : Geometry.t) k u d d' o :
  (∀ r, r ∈ Geometry.rules g →
        keeps_row (Rule.transport r) k ∧ keeps_row (Rule.collision r) k) →
  state d !! k = Some u → result d !! k = Some u →
  operator_splitting d (Geometry.transport g) (Geometry.collision g) = (d', o) →
  state d' !! k = Some u ∧ result d' !! k = Some u.
Proof.
  intros Hkeep Hs Hr. rewrite operator_splitting_eq.
  destruct (Geometry.transport g d) as [d1 o1] eqn:Ht.
  apply (transport_keeps_agreement g k u) in Ht as [Hs1 Hr1];
    [| intros r Hin; by apply Hkeep | done | done].
  destruct o1 as [[]|e1]; [|by intros [= <- _]].
  destruct (Geometry.collision g d1) as [d2 o2] eqn:Hc.
  assert (state d2 !! k = Some u ∧ result d2 !! k = Some u) as [Hs2 Hr2].
  { unfold Geometry.collision in Hc.
    assert (keeps_row (for_each (Geometry.rules g) Rule.collision) k) as Hk.
    { apply for_each_keeps_row. intros r Hin. by apply Hkeep. }
    destruct (Hk _ _ _ Hc). split; congruence. }
  destruct o2 as [[]|e2]; [|by intros [= <- _]].
  destruct (all_nonneg (state d2)); by intros [= <- _].
Qed.

(** X7: A point whose row no rule writes, in transport or in collision, keeps
    its state for ever once the result buffer holds that state too: after any
    number of time steps, however the run ends, the row is what it was. *)
Theorem constant_rows_for_ever (g : Geometry.t) k u (n : nat) d d' o :
  (∀ r, r ∈ Geometry.rules g →
        keeps_row (Rule.transport r) k ∧ keeps_row (Rule.collision r) k) →
  state d !! k = Some u → result d !! k = Some u →
  run_steps g n d = (d', o) →
  state d' !! k = Some u ∧ result d' !! k = Some u.
Proof.
  intros Hkeep. revert d. induction n as [|n IH]; intros d Hs Hr; cbn [run_steps].
  { by intros [= <- _]. }
  destruct (operator_splitting _ _ _) as [d1 o1] eqn:Hstep.
  apply (step_keeps_agreement g k u) in Hstep as [Hs1 Hr1]; [|done..].
  destruct o1 as [[]|e1]; [by apply IH | by intros [= <- _]].
Qed.

Lemma no_index_one_addresses (k : nat) : k ≠ 1%nat → ∀ n, ¬ addresses n [1] k.
Proof.
  intros Hk n (i & Hi & Hv & Hp). apply list_elem_of_singleton in Hi as ->.
  unfold valid, pos_of in *.
  rewrite Z.mod_small in Hp by lia. by subst k.
Qed.

Lemma constant_rows_for_ever_witness :
  state (fst (run_steps geometry3 2 data3)) !! 0%nat = Some [1; 2]%Q.
Proof.
  refine (proj1 (constant_rows_for_ever geometry3 0 [1; 2]%Q 2 data3
                   (fst (run_steps geometry3 2 data3))
                   (snd (run_steps geometry3 2 data3)) _ eq_refl eq_refl _)).
  - intros r Hr. apply list_elem_of_In in Hr. simpl in Hr.
    destruct Hr as [<- | [<- | [<- | []]]].
    + split; [apply no_transport_keeps_row | apply no_collisions_keeps_row].
    + split; [apply transport_fdm_inner_keeps_row | apply euler_scheme_keeps_row];
        by apply no_index_one_addresses.
    + split; [apply no_transport_keeps_row | apply no_collisions_keeps_row].
  - apply surjective_pairing.
Defined.

(** ** Grid: what the count means *)


Lemma product_ge_one (l : list Z) : Forall (λ c, 1 ≤ c) l → 1 ≤ foldr Z.mul 1 l.
Proof. induction 1 as [|c l Hc _ IH]; simpl; [lia | nia]. Qed.

Section GridCount.
Context `{Identity}.


End GridCount.






Section GridInitialize.
Context `{Identity}.


Lemma assign_rows_length (b : list (Q * Q)) dim new bs :
  Grid.assign_rows b dim new = Ok bs → length bs = length b.
Proof.
  unfold Grid.assign_rows.
  assert (Grid.slice_stop (length b) dim ≤ length b)%nat as Hm.
  { unfold Grid.slice_stop. case_bool_decide; lia. }
  destruct new as [|x [|y new]].
  - done.
  - intros [= <-]. rewrite length_app, length_replicate, length_drop. lia.
  - case_bool_decide as Hl; [|done]. intros [= <-].
    change (x :: y :: new ++ ?k) with ((x :: y :: new) ++ k).
    rewrite length_app, length_drop, Hl. lia.
Qed.

(** X10: A grid that [initialize] has just set up passes [check_integrity] exactly
    when its dimension is 1, 2 or 3, its step is positive, its count is at
    least 2, and the interpreter takes the stored count and the count computed
    anew for one object. *)
Theorem initialize_then_check (self : Grid.t) dim b d shape g' :
  length (Grid.boundaries self) = 3%nat →
  Grid.initialize self dim (Some b) (Some d) None shape = (g', Ok tt) →
  Grid.check_integrity g' = Ok tt ↔
    dim ∈ [1; 2; 3] ∧ (0 < d)%Q ∧ 2 ≤ Grid.n g'
    ∧ is_int (Grid.n g') (Grid.n g') = true.
Proof.
  intros Hlen. cbn [Grid.initialize]. unfold Grid.__initialize_without_n.
  cbn [Grid.boundaries Grid.d Grid.n Grid.shape Grid.dim].
  destruct (Grid.assign_rows _ _ _) as [bs|e] eqn:Hassign; [|done].
  destruct (Grid.__compute_n _) as [m|e] eqn:Hm; [|done].
  intros [= <-]. apply assign_rows_length in Hassign.
  assert (Grid.__compute_n (Grid.mk dim bs d m shape) = Ok m) as Hm' by exact Hm.
  apply compute_n_Ok in Hm as [Hs _]. apply is_str_eq in Hs.
  cbn [Grid.shape] in Hs. subst shape.
  unfold Grid.check_integrity. rewrite Hm'.
  cbn [Grid.boundaries Grid.d Grid.n Grid.shape Grid.dim].
  rewrite !bind_assert_Ok. cbn [mbind outcome_bind].
  rewrite assert_Ok, !bool_decide_eq_true, Qltb_lt. split.
  - intros (? & ? & ? & ? & ? & ?). done.
  - intros (? & ? & ? & ?). split_and!; try done; [congruence | by left].
Qed.

End GridInitialize.


Lemma initialize_then_check_witness :
  Grid.check_integrity (H := cpython) grid3 = Ok tt.
Proof.
  apply (initialize_then_check (H := cpython) Grid.__init__ 1
           [(0, 1)%Q] (1 # 2) "rectangular" grid3 eq_refl eq_refl).
  split_and!; [by left | reflexivity | simpl; lia | reflexivity].
Defined.

(** ** Geometry: the initial state *)

Lemma fold_outcome_app {A S} (body : S → A → outcome S) s (xs ys : list A) :
  fold_outcome body s (xs ++ ys)
  = s' ← fold_outcome body s xs; fold_outcome body s' ys.
Proof.
  revert s. induction xs as [|x xs IH]; intros s; simpl; [done|].
  destruct (body s x); simpl; [apply IH | done].
Qed.

Lemma fold_outcome_map {A B S} (body : S → B → outcome S) (f : A → B) s xs :
  fold_outcome body s (map f xs) = fold_outcome (λ s x, body s (f x)) s xs.
Proof.
  revert s. induction xs as [|x xs IH]; intros s; simpl; [done|].
  destruct (body s (f x)); simpl; [apply IH | done].
Qed.

Lemma initial_writes_fold (rs : list Rule.t) (st : array) :
  fold_outcome
    (λ state rule,
       fold_outcome (λ state p, store_row state p (Rule.initial_state rule))
                    state (Rule.affected_points rule)) st rs
  = fold_outcome (λ state pv, store_row state pv.1 pv.2) st (initial_writes rs).
Proof.
  revert st. unfold initial_writes.
  induction rs as [|r rs IH]; intros st; simpl; [done|].
  rewrite fold_outcome_app, fold_outcome_map. cbn [fst snd].
  destruct (fold_outcome _ st (Rule.affected_points r)); simpl; [apply IH | done].
Qed.

Lemma initial_writes_points (rs : list Rule.t) :
  map fst (initial_writes rs) = Geometry.collect rs.
Proof.
  unfold initial_writes, Geometry.collect.
  induction rs as [|r rs IH]; simpl; [done|].
  rewrite map_app, IH. f_equal. rewrite map_map. apply map_id.
Qed.

Lemma elem_of_initial_writes (rs : list Rule.t) p v :
  (p, v) ∈ initial_writes rs ↔
  ∃ r, r ∈ rs ∧ p ∈ Rule.affected_points r ∧ v = Rule.initial_state r.
Proof.
  unfold initial_writes. induction rs as [|r rs IH]; simpl.
  - split; [intros Hp; inversion Hp | intros (r & Hr & _); inversion Hr].
  - rewrite elem_of_app, IH. split.
    + intros [Hp | (r' & Hr' & Hp)].
      * apply list_elem_of_In, in_map_iff in Hp as (q & [= <- <-] & Hq).
        exists r. split_and!; [left | by apply list_elem_of_In | done].
      * exists r'. split; [by right | done].
    + intros (r' & Hr' & Hp & ->). apply elem_of_cons in Hr' as [-> | Hr'].
      * left. apply list_elem_of_In, in_map_iff. exists p.
        by rewrite <- list_elem_of_In.
      * right. eauto.
Qed.

Lemma store_row_spec m (st : array) p v :
  Forall (λ r, length r = m) st → 0 ≤ p < Z.of_nat (length st) → length v = m →
  store_row st p v = Ok (<[Z.to_nat p := v]> st).
Proof.
  intros Hcols Hp Hv. unfold store_row.
  rewrite norm_index_valid by (unfold valid; lia). cbn [mbind outcome_bind].
  assert (pos_of (length st) p = Z.to_nat p) as ->.
  { unfold pos_of. by rewrite Z.mod_small. }
  destruct (lookup_lt_is_Some_2 st (Z.to_nat p)) as [old Hold]; [lia|].
  rewrite Hold, fit_row_same; [done|].
  eapply Forall_forall in Hcols; [|by eapply list_elem_of_lookup_2]. congruence.
Qed.

Lemma store_pairs_spec m (st : array) (writes : list (Z * row)) :
  Forall (λ r, length r = m) st →
  Forall (λ pv, 0 ≤ pv.1 < Z.of_nat (length st) ∧ length pv.2 = m) writes →
  NoDup (map fst writes) →
  ∃ st', fold_outcome (λ state pv, store_row state pv.1 pv.2) st writes = Ok st'
    ∧ length st' = length st ∧ Forall (λ r, length r = m) st'
    ∧ (∀ p v, (p, v) ∈ writes → st' !! Z.to_nat p = Some v)
    ∧ (∀ k, (∀ p, p ∈ map fst writes → Z.to_nat p ≠ k) → st' !! k = st !! k).
Proof.
  revert st. induction writes as [|[p v] writes IH]; intros st Hcols Hw Hnd.
  - exists st. split_and!; try done. intros p v Hp. inversion Hp.
  - apply Forall_cons in Hw as [[Hp Hv] Hw]. cbn [fst snd] in Hp, Hv.
    simpl in Hnd. apply NoDup_cons in Hnd as [Hfresh Hnd].
    cbn [fold_outcome fst snd]. rewrite (store_row_spec m) by done.
    cbn [mbind outcome_bind].
    destruct (IH (<[Z.to_nat p := v]> st)) as (st' & Hrun & Hl & Hc & Hin & Hout).
    { by apply Forall_insert. }
    { by rewrite length_insert. }
    { done. }
    exists st'. rewrite length_insert in Hl. split_and!; try done.
    + intros q w Hq. apply elem_of_cons in Hq as [[= -> ->] | Hq]; [|by apply Hin].
      rewrite Hout.
      * apply list_lookup_insert_eq. lia.
      * intros q Hq Heq. apply Hfresh.
        assert (0 ≤ q) as Hq0.
        { apply list_elem_of_In, in_map_iff in Hq as ([q' w'] & <- & Hin').
          apply list_elem_of_In in Hin'.
          eapply Forall_forall in Hw; [|done]. cbn [fst] in *. lia. }
        by replace p with q by lia.
    + intros k Hk. rewrite Hout.
      * apply list_lookup_insert_ne. apply Hk. simpl. left.
      * intros q Hq. apply Hk. simpl. by right.
Qed.

Lemma check_integrity_complete (g : Geometry.t) :
  Geometry.check_integrity g true = Ok tt →
  ∃ s, Geometry.shape g = Some s ∧ Forall (λ x, 1 ≤ x) s
       ∧ Z.of_nat (length s) ∈ Geometry.SUPP_GRID_DIMENSIONS
       ∧ Z.of_nat (length (Geometry.collect (Geometry.rules g))) = foldr Z.mul 1 s
       ∧ NoDup (Geometry.collect (Geometry.rules g))
       ∧ Geometry.one_model (Geometry.rules g) = true.
Proof.
  unfold Geometry.check_integrity, Geometry.check_parameters, Geometry.ndim.
  destruct (Geometry.shape g) as [s|]; [|done].
  intros Hok. exists s. split; [done|].
  apply bind_unit_Ok in Hok as (_ & Hok).
  apply bind_assert_Ok in Hok as (Hnd & Hok).
  apply bind_assert_Ok in Hok as (Hshape & Hok).
  apply bind_unit_Ok in Hok as ([[] Hok] & _).
  apply bind_unit_Ok in Hok as (_ & Hok).
  apply bind_assert_Ok in Hok as [Hd Hok].
  apply bind_assert_Ok in Hok as [Hlen Hone].
  apply assert_Ok in Hone.
  apply bool_decide_eq_true in Hlen, Hnd. apply all_distinct_NoDup in Hd.
  split_and!; try done.
  apply Forall_forall. intros x Hx.
  rewrite forallb_forall in Hshape. apply list_elem_of_In in Hx.
  apply Hshape in Hx. by apply bool_decide_eq_true in Hx.
Qed.

Lemma is_set_up_true (g : Geometry.t) :
  Geometry.is_set_up g = Ok true →
  ∃ s sz, Geometry.shape g = Some s ∧ Geometry.size g = Some sz ∧ 1 ≤ sz
    ∧ Z.of_nat (length s) ∈ Geometry.SUPP_GRID_DIMENSIONS
    ∧ sz = foldr Z.mul 1 s ∧ Forall (λ x, 1 ≤ x) s
    ∧ NoDup (Geometry.collect (Geometry.rules g))
    ∧ (∀ p, p ∈ Geometry.collect (Geometry.rules g) ↔ 0 ≤ p < sz)
    ∧ Geometry.one_model (Geometry.rules g) = true.
Proof.
  unfold Geometry.is_set_up. intros Hup.
  destruct (Geometry.shape g) as [s|] eqn:Hs; [|done].
  apply bind_Ok in Hup as (U & HU & Hup).
  destruct (bool_decide (size U ≠ 0%nat)) eqn:Hsz; [done|].
  apply bool_decide_eq_false in Hsz.
  apply bind_unit_Ok in Hup as ([[] Hchk] & _).
  apply unaffected_points_Ok in HU as (sz & Hsize & Hnd & ->).
  apply check_integrity_complete in Hchk as (s' & Hs' & Hpos & Hdim & Hlen & _ & Hone).
  assert (s' = s) as -> by congruence.
  assert (sz = foldr Z.mul 1 s) as Hprod.
  { unfold Geometry.size in Hsize. rewrite Hs in Hsize. congruence. }
  assert (∀ p, p ∈ seqZ 0 sz → p ∈ Geometry.collect (Geometry.rules g)) as Hcover.
  { intros p Hp. destruct (decide (p ∈ Geometry.collect (Geometry.rules g))); [done|].
    exfalso. apply Hsz. apply size_non_empty_iff.
    intros Hempty. assert (p ∈ (∅ : gset Z)) as Habs; [|set_solver].
    rewrite <- Hempty. set_solver. }
  assert (Geometry.collect (Geometry.rules g) ≡ₚ seqZ 0 sz) as Hperm.
  { symmetry. apply submseteq_length_Permutation.
    - apply NoDup_submseteq; [apply NoDup_seqZ | done].
    - rewrite length_seqZ. lia. }
  exists s, sz. split_and!; try done.
  - rewrite Hprod. by apply product_ge_one.
  - intros p. rewrite Hperm, elem_of_seqZ. lia.
Qed.

Lemma one_model_same (rs : list Rule.t) r r' :
  Geometry.one_model rs = true → r ∈ rs → r' ∈ rs →
  length (Rule.initial_state r) = length (Rule.initial_state r').
Proof.
  unfold Geometry.one_model. rewrite bool_decide_eq_true. intros Hsize Hr Hr'.
  set (f := λ r : Rule.t, length (Rule.initial_state r)) in *.
  destruct (decide (f r = f r')) as [|Hne]; [done|]. exfalso.
  assert (({[f r]} ∪ {[f r']} : gset nat) ⊆ list_to_set (map f rs)) as Hsub.
  { apply union_subseteq. split; apply singleton_subseteq_l, elem_of_list_to_set;
      rewrite map_fmap; by apply list_elem_of_fmap_2. }
  apply subseteq_size in Hsub.
  rewrite size_union, !size_singleton in Hsub by set_solver. lia.
Qed.

Lemma size_of_model_spec (g : Geometry.t) r0 :
  Geometry.one_model (Geometry.rules g) = true → r0 ∈ Geometry.rules g →
  Geometry.size_of_model g = Ok (length (Rule.initial_state r0)).
Proof.
  intros Hone Hr0. unfold Geometry.size_of_model.
  set (f := λ r : Rule.t, length (Rule.initial_state r)).
  assert (size (list_to_set (map f (Geometry.rules g)) : gset nat) = 1%nat) as Hsz.
  { unfold Geometry.one_model in Hone. apply bool_decide_eq_true in Hone.
    fold f in Hone.
    assert (size (list_to_set (map f (Geometry.rules g)) : gset nat) ≠ 0%nat).
    { apply size_non_empty_iff. intros Hempty.
      assert (f r0 ∈ (∅ : gset nat)) as Habs; [|set_solver].
      rewrite <- Hempty. apply elem_of_list_to_set. rewrite map_fmap.
      by apply list_elem_of_fmap_2. }
    lia. }
  rewrite bool_decide_eq_true_2 by done. cbn [assert mbind outcome_bind].
  destruct (Geometry.rules g) as [|r rs] eqn:Hrs; [inversion Hr0|].
  simpl. f_equal. apply (one_model_same (r :: rs)); [done | left | done].
Qed.

(** X11: [initial_state] of a geometry that is not set up is [None].  Of a geometry
    that is set up it is an array with one row per grid point, in which the
    row of every point is the initial state of the rule that owns the
    point. *)
Theorem initial_state_rows (g : Geometry.t) :
  (Geometry.is_set_up g = Ok false → Geometry.initial_state g = Ok None)
  ∧ (Geometry.is_set_up g = Ok true →
     ∃ st sz, Geometry.initial_state g = Ok (Some st)
       ∧ Geometry.size g = Some sz ∧ Z.of_nat (length st) = sz
       ∧ (∀ r p, r ∈ Geometry.rules g → p ∈ Rule.affected_points r →
            st !! Z.to_nat p = Some (Rule.initial_state r))
       ∧ (∀ k row, st !! k = Some row →
            ∃ r, r ∈ Geometry.rules g ∧ Z.of_nat k ∈ Rule.affected_points r
                 ∧ row = Rule.initial_state r)).
Proof.
  split; intros Hup; unfold Geometry.initial_state; rewrite Hup;
    cbn [mbind outcome_bind negb]; [done|].
  destruct (is_set_up_true g Hup)
    as (s & sz & Hs & Hsize & Hsz & _ & _ & _ & Hnd & Hcover & Hone).
  rewrite Hsize. cbn [mbind outcome_bind].
  assert (∃ r0, r0 ∈ Geometry.rules g) as [r0 Hr0].
  { assert (0 ∈ Geometry.collect (Geometry.rules g)) as H0 by (apply Hcover; lia).
    apply elem_of_collect in H0 as (r0 & Hr0 & _). eauto. }
  rewrite (size_of_model_spec g r0) by done. cbn [mbind outcome_bind].
  rewrite bool_decide_eq_false_2 by lia. cbn [mbind outcome_bind].
  rewrite initial_writes_fold.
  set (m := length (Rule.initial_state r0)).
  destruct (store_pairs_spec m (zeros (Z.to_nat sz) m)
              (initial_writes (Geometry.rules g)))
    as (st & Hrun & Hl & _ & Hin & _).
  { apply zeros_cols. }
  { apply Forall_forall. intros [p v] Hpv.
    apply elem_of_initial_writes in Hpv as (r & Hr & Hp & ->). cbn [fst snd].
    unfold zeros. rewrite length_replicate. split.
    - assert (p ∈ Geometry.collect (Geometry.rules g)) as Hpc
        by (apply elem_of_collect; eauto).
      apply Hcover in Hpc. lia.
    - by apply (one_model_same (Geometry.rules g)). }
  { by rewrite initial_writes_points. }
  rewrite Hrun. cbn [mbind outcome_bind].
  unfold zeros in Hl. rewrite length_replicate in Hl.
  exists st, sz. split_and!; [done | done | lia | |].
  - intros r p Hr Hp. apply Hin. apply elem_of_initial_writes. eauto.
  - intros k row Hk. pose proof (lookup_lt_Some _ _ _ Hk) as Hlt.
    assert (Z.of_nat k ∈ Geometry.collect (Geometry.rules g)) as Hkc
      by (apply Hcover; lia).
    apply elem_of_collect in Hkc as (r & Hr & Hp). exists r.
    split_and!; [done | done |].
    assert (st !! Z.to_nat (Z.of_nat k) = Some (Rule.initial_state r)) as Hrow.
    { apply Hin. apply elem_of_initial_writes. eauto. }
    rewrite Nat2Z.id in Hrow. congruence.
Qed.

Lemma initial_state_rows_witness :
  ∃ st, Geometry.initial_state geometry3 = Ok (Some st)
    ∧ st !! 1%nat = Some [1; 1]%Q.
Proof.
  destruct (proj2 (initial_state_rows geometry3))
    as (st & sz & Hst & _ & _ & Hrows & _).
  - vm_compute. reflexivity.
  - exists st. split; [done|].
    apply (Hrows middle 1); [right; left | left].
Defined.

(** ** Geometry: adding rules *)

Lemma check_integrity_incomplete (g : Geometry.t) :
  Geometry.check_integrity g false = Ok tt →
  NoDup (Geometry.collect (Geometry.rules g))
  ∧ Geometry.one_model (Geometry.rules g) = true
  ∧ (∀ s, Geometry.shape g = Some s →
          Z.of_nat (length s) ∈ Geometry.SUPP_GRID_DIMENSIONS
          ∧ Forall (λ x, 1 ≤ x) s).
Proof.
  unfold Geometry.check_integrity, Geometry.check_parameters, Geometry.ndim.
  intros Hok.
  apply bind_unit_Ok in Hok as (_ & Hok).
  apply bind_unit_Ok in Hok as ([[] Hnd] & Hok).
  apply bind_unit_Ok in Hok as ([[] Hshape] & Hok).
  apply bind_unit_Ok in Hok as ([[] Hok] & _).
  apply bind_unit_Ok in Hok as (_ & Hok).
  apply bind_assert_Ok in Hok as [Hd Hok].
  cbn [mbind outcome_bind] in Hok. apply assert_Ok in Hok.
  apply all_distinct_NoDup in Hd. split_and!; try done.
  intros s Hs. rewrite Hs in Hnd, Hshape.
  apply assert_Ok in Hnd, Hshape. apply bool_decide_eq_true in Hnd.
  split; [done|]. apply Forall_forall. intros x Hx.
  rewrite forallb_forall in Hshape. apply list_elem_of_In in Hx.
  apply Hshape in Hx. by apply bool_decide_eq_true in Hx.
Qed.

(** X12: When [add_rule] returns normally, the new rule is the last of [rules], its
    points are distinct and were all unclaimed, and the unclaimed points of the
    geometry are the former ones without the points of the new rule. *)
Theorem add_rule_claims_points (g g' : Geometry.t) (new_rule : Rule.t) U :
  Geometry.unaffected_points g = Ok U →
  Geometry.add_rule g new_rule = (g', Ok tt) →
  Geometry.rules g' = Geometry.rules g ++ [new_rule]
  ∧ Geometry.shape g' = Geometry.shape g
  ∧ NoDup (Rule.affected_points new_rule)
  ∧ (∀ p, p ∈ Rule.affected_points new_rule → p ∈ U)
  ∧ Geometry.unaffected_points g'
    = Ok (U ∖ list_to_set (Rule.affected_points new_rule)).
Proof.
  intros HU. unfold Geometry.add_rule. rewrite HU. cbn [mbind outcome_bind].
  destruct (bool_decide _) eqn:Hsub; cbn [assert]; [|done].
  apply bool_decide_eq_true in Hsub. intros [= <- Hchk].
  cbn [Geometry.rules Geometry.shape].
  apply check_integrity_incomplete in Hchk as (Hnd & _ & _).
  cbn [Geometry.rules] in Hnd. rewrite collect_app in Hnd.
  assert (Geometry.collect [new_rule] = Rule.affected_points new_rule) as Hone.
  { unfold Geometry.collect. simpl. apply app_nil_r. }
  rewrite Hone in Hnd. apply NoDup_app in Hnd as (Hold & Hdisj & Hnew).
  apply unaffected_points_Ok in HU as (sz & Hsz & _ & ->).
  split_and!; try done.
  - intros p Hp. apply Hsub. by apply elem_of_list_to_set.
  - apply unaffected_points_Ok. exists sz. split_and!.
    + done.
    + cbn [Geometry.rules]. rewrite collect_app, Hone. apply NoDup_app. done.
    + cbn [Geometry.rules]. rewrite collect_app, Hone.
      apply set_eq. intros p. rewrite list_to_set_app. set_solver.
Qed.

Lemma add_rule_claims_points_witness :
  Geometry.unaffected_points (fst (Geometry.add_rule geometry2 right_end))
  = Ok ((list_to_set (seqZ 0 3) ∖ list_to_set [0; 1]) ∖ list_to_set [2]).
Proof.
  refine (proj2 (proj2 (proj2 (proj2
    (add_rule_claims_points geometry2
       (fst (Geometry.add_rule geometry2 right_end)) right_end
       (list_to_set (seqZ 0 3) ∖ list_to_set [0; 1]) _ _))))).
  - vm_compute. reflexivity.
  - vm_compute. reflexivity.
Defined.

(** X13: The constructor takes a shape of any number of axes, but [add_rule] on a
    geometry of other than one or two axes cannot return normally: a rule over
    unclaimed points is appended to [rules], and then the integrity check
    raises [AssertionError]. *)
Theorem add_rule_unsupported_dimension (s : list Z) :
  Forall (λ x, 1 ≤ x) s →
  Z.of_nat (length s) ∉ Geometry.SUPP_GRID_DIMENSIONS →
  Geometry.__init__ (Some s) None = Ok (Geometry.mk (Some s) [])
  ∧ ∀ (g : Geometry.t) (new_rule : Rule.t) U,
      Geometry.shape g = Some s →
      Geometry.unaffected_points g = Ok U →
      (∀ p, p ∈ Rule.affected_points new_rule → p ∈ U) →
      Geometry.add_rule g new_rule
      = (Geometry.mk (Some s) (Geometry.rules g ++ [new_rule]),
         Raise AssertionError).
Proof.
  intros Hpos Hdim. split.
  - unfold Geometry.__init__, Geometry.check_parameters.
    cbn [mbind outcome_bind].
    assert (forallb (λ x, bool_decide (1 ≤ x)) s = true) as ->; [|done].
    apply forallb_forall. intros x Hx. apply bool_decide_eq_true.
    eapply Forall_forall in Hpos; [exact Hpos|]. by apply list_elem_of_In.
  - intros g new_rule U Hs HU Hsub. unfold Geometry.add_rule.
    rewrite HU. cbn [mbind outcome_bind].
    rewrite bool_decide_eq_true_2.
    2:{ intros p Hp. apply Hsub. by apply elem_of_list_to_set in Hp. }
    cbn [assert]. rewrite Hs. f_equal.
    unfold Geometry.check_integrity, Geometry.check_parameters, Geometry.ndim.
    cbn [Geometry.shape mbind outcome_bind].
    rewrite (bool_decide_eq_false_2 _ Hdim). reflexivity.
Qed.

Lemma add_rule_unsupported_dimension_witness :
  Geometry.__init__ (Some [2; 2; 2]) None = Ok geometry_3d
  ∧ Geometry.add_rule geometry_3d corner
    = (Geometry.mk (Some [2; 2; 2]) [corner], Raise AssertionError).
Proof.
  destruct (add_rule_unsupported_dimension [2; 2; 2]) as [Hinit Hadd].
  - repeat constructor; lia.
  - intros Hin. apply list_elem_of_In in Hin. simpl in Hin. lia.
  - split; [exact Hinit|].
    apply (Hadd geometry_3d corner (list_to_set (seqZ 0 8) ∖ list_to_set [])).
    + reflexivity.
    + vm_compute. reflexivity.
    + intros p Hp. apply list_elem_of_singleton in Hp as ->. vm_compute. reflexivity.
Defined.

(** ** Geometry: the array of owners *)

Lemma owner_writes_fold (irs : list (nat * Rule.t)) (a : int_grid) :
  fold_outcome
    (λ init_arr '(idx_r, r),
       fold_outcome (λ init_arr idx_p, fill_slot init_arr idx_p (Z.of_nat idx_r))
                    init_arr (Rule.affected_points r)) a irs
  = fold_outcome (λ init_arr pv, fill_slot init_arr pv.1 pv.2) a (owner_writes irs).
Proof.
  revert a. unfold owner_writes.
  induction irs as [|[i r] irs IH]; intros a; simpl; [done|].
  rewrite fold_outcome_app, fold_outcome_map. cbn [fst snd].
  destruct (fold_outcome _ a (Rule.affected_points r)); simpl; [apply IH | done].
Qed.

Lemma owner_writes_points (rs : list Rule.t) (f : nat → nat) :
  map fst (owner_writes (imap (λ i r, (f i, r)) rs)) = Geometry.collect rs.
Proof.
  unfold owner_writes, Geometry.collect. revert f.
  induction rs as [|r rs IH]; intros f; simpl; [done|].
  rewrite map_app. f_equal; [rewrite map_map; apply map_id | exact (IH (f ∘ S))].
Qed.

Lemma elem_of_owner_writes (rs : list Rule.t) p v :
  (p, v) ∈ owner_writes (imap pair rs) ↔
  ∃ (i : nat) r, rs !! i = Some r ∧ p ∈ Rule.affected_points r ∧ v = Z.of_nat i.
Proof.
  unfold owner_writes. rewrite list_elem_of_In, in_concat. split.
  - intros (l & Hl & Hp). apply in_map_iff in Hl as ([i r] & <- & Hir).
    apply in_map_iff in Hp as (q & [= <- <-] & Hq).
    apply list_elem_of_In, elem_of_lookup_imap in Hir as (j & r' & [= -> ->] & Hj).
    exists j, r'. by rewrite list_elem_of_In.
  - intros (i & r & Hi & Hp & ->).
    exists (map (λ q, (q, Z.of_nat i)) (Rule.affected_points r)). split.
    + apply in_map_iff. exists (i, r). split; [done|].
      apply list_elem_of_In, elem_of_lookup_imap. eauto.
    + apply in_map_iff. exists p. by rewrite <- list_elem_of_In.
Qed.

Lemma fill_writes_spec (vals inner : list Z) (writes : list (Z * Z)) :
  Forall (λ pv, 0 ≤ pv.1 < Z.of_nat (length vals)) writes →
  NoDup (map fst writes) →
  ∃ vals', fold_outcome (λ a pv, fill_slot a pv.1 pv.2) (Slots vals inner) writes
           = Ok (Slots vals' inner)
    ∧ length vals' = length vals
    ∧ (∀ p v, (p, v) ∈ writes → vals' !! Z.to_nat p = Some v)
    ∧ (∀ k, (∀ p, p ∈ map fst writes → Z.to_nat p ≠ k) → vals' !! k = vals !! k).
Proof.
  revert vals. induction writes as [|[p v] writes IH]; intros vals Hw Hnd.
  - exists vals. split_and!; try done. intros p v Hp. inversion Hp.
  - apply Forall_cons in Hw as [Hp Hw]. cbn [fst] in Hp.
    simpl in Hnd. apply NoDup_cons in Hnd as [Hfresh Hnd].
    cbn [fold_outcome fill_slot fst snd].
    rewrite norm_index_valid by (unfold valid; lia). cbn [mbind outcome_bind].
    assert (pos_of (length vals) p = Z.to_nat p) as ->.
    { unfold pos_of. by rewrite Z.mod_small. }
    destruct (IH (<[Z.to_nat p := v]> vals)) as (vals' & Hrun & Hl & Hin & Hout).
    { eapply Forall_impl; [exact Hw|]. intros pv Hpv. by rewrite length_insert. }
    { done. }
    exists vals'. rewrite length_insert in Hl. split_and!; try done.
    + intros q w Hq. apply elem_of_cons in Hq as [[= -> ->] | Hq]; [|by apply Hin].
      rewrite Hout.
      * apply list_lookup_insert_eq. lia.
      * intros q Hq Heq. apply Hfresh.
        assert (0 ≤ q) as Hq0.
        { apply list_elem_of_In, in_map_iff in Hq as ([q' w'] & <- & Hin').
          apply list_elem_of_In in Hin'.
          eapply Forall_forall in Hw; [|done]. cbn [fst] in *. lia. }
        by replace p with q by lia.
    + intros k Hk. rewrite Hout.
      * apply list_lookup_insert_ne. apply Hk. simpl. left.
      * intros q Hq. apply Hk. simpl. by right.
Qed.

Lemma fill_writes_invalid (vals inner : list Z) (writes : list (Z * Z)) :
  Exists (λ pv, ¬ valid (length vals) pv.1) writes →
  fold_outcome (λ a pv, fill_slot a pv.1 pv.2) (Slots vals inner) writes
  = Raise IndexError.
Proof.
  revert vals. induction writes as [|[p v] writes IH]; intros vals Hex.
  { inversion Hex. }
  cbn [fold_outcome fill_slot fst snd].
  destruct (norm_index (length vals) p) as [k|e] eqn:Hn.
  - cbn [mbind outcome_bind]. apply IH. rewrite length_insert.
    apply Exists_cons in Hex as [Hbad | Hex]; [|done].
    apply norm_index_Ok in Hn as [Hv _]. done.
  - unfold norm_index in Hn. repeat case_bool_decide; try done.
    by injection Hn as <-.
Qed.

(** X14: [init_array] of a geometry that is set up, of shape [n] or [n x 1]: every
    point holds the position of the rule that owns it, and no slot keeps the
    filler -1.  With a second axis longer than 1 the point indices run past
    the first axis and [init_array] raises [IndexError]. *)
Theorem init_array_owner (g : Geometry.t) n inner :
  Geometry.is_set_up g = Ok true →
  Geometry.shape g = Some (n :: inner) →
  (foldr Z.mul 1 inner = 1 →
     ∃ vals, Geometry.init_array g = Ok (Slots vals inner)
       ∧ Z.of_nat (length vals) = n
       ∧ (∀ (i : nat) r p, Geometry.rules g !! i = Some r →
            p ∈ Rule.affected_points r → vals !! Z.to_nat p = Some (Z.of_nat i))
       ∧ (∀ k v, vals !! k = Some v →
            ∃ (i : nat) r, Geometry.rules g !! i = Some r
              ∧ Z.of_nat k ∈ Rule.affected_points r ∧ v = Z.of_nat i))
  ∧ (1 < foldr Z.mul 1 inner → Geometry.init_array g = Raise IndexError).
Proof.
  intros Hup Hshape.
  destruct (is_set_up_true g Hup)
    as (s & sz & Hs & Hsize & Hsz & _ & Hprod & Hpos & Hnd & Hcover & _).
  assert (s = n :: inner) as -> by congruence.
  apply Forall_cons in Hpos as [Hn Hinner]. simpl in Hprod.
  assert (Geometry.init_array g
          = fold_outcome (λ a pv, fill_slot a pv.1 pv.2)
              (Slots (replicate (Z.to_nat n) (-1)) inner)
              (owner_writes (imap pair (Geometry.rules g)))) as Hinit.
  { unfold Geometry.init_array, full. rewrite Hshape.
    assert (forallb (λ x, bool_decide (0 ≤ x)) (n :: inner) = true) as ->.
    { apply forallb_forall. intros x Hx. apply bool_decide_eq_true.
      apply list_elem_of_In, elem_of_cons in Hx as [-> | Hx]; [lia|].
      eapply Forall_forall in Hinner; [|done]. lia. }
    cbn [negb mbind outcome_bind]. apply owner_writes_fold. }
  rewrite Hinit. split.
  - intros Hone.
    destruct (fill_writes_spec (replicate (Z.to_nat n) (-1)) inner
                (owner_writes (imap pair (Geometry.rules g))))
      as (vals & Hrun & Hl & Hin & _).
    { apply Forall_forall. intros [p v] Hpv. cbn [fst].
      apply elem_of_owner_writes in Hpv as (i & r & Hi & Hp & _).
      rewrite length_replicate.
      assert (p ∈ Geometry.collect (Geometry.rules g)) as Hpc.
      { apply elem_of_collect. exists r. split; [|done].
        by eapply list_elem_of_lookup_2. }
      apply Hcover in Hpc. nia. }
    { by rewrite (owner_writes_points _ id). }
    rewrite length_replicate in Hl.
    exists vals. split_and!; [done | lia | |].
    + intros i r p Hi Hp. apply Hin. apply elem_of_owner_writes. eauto.
    + intros k v Hk. pose proof (lookup_lt_Some _ _ _ Hk) as Hlt.
      assert (Z.of_nat k ∈ Geometry.collect (Geometry.rules g)) as Hkc
        by (apply Hcover; nia).
      apply elem_of_collect in Hkc as (r & Hr & Hp).
      apply list_elem_of_lookup in Hr as [i Hi]. exists i, r.
      split_and!; [done | done |].
      assert (vals !! Z.to_nat (Z.of_nat k) = Some (Z.of_nat i)) as Hv.
      { apply Hin. apply elem_of_owner_writes. eauto. }
      rewrite Nat2Z.id in Hv. congruence.
  - intros Hmany. apply fill_writes_invalid.
    assert (n ∈ Geometry.collect (Geometry.rules g)) as Hnc by (apply Hcover; nia).
    apply elem_of_collect in Hnc as (r & Hr & Hp).
    apply list_elem_of_lookup in Hr as [i Hi].
    apply Exists_exists. exists (n, Z.of_nat i). split.
    + apply elem_of_owner_writes. eauto.
    + cbn [fst]. rewrite length_replicate. unfold valid. lia.
Qed.

Lemma init_array_owner_witness :
  (∃ vals, Geometry.init_array geometry3 = Ok (Slots vals [])
     ∧ vals !! 1%nat = Some 1)
  ∧ Geometry.init_array geometry_2x2 = Raise IndexError.
Proof.
  split.
  - destruct (proj1 (init_array_owner geometry3 3 [] eq_refl eq_refl) eq_refl)
      as (vals & Hrun & _ & Hown & _).
    exists vals. split; [done|].
    apply (Hown 1%nat middle 1); [reflexivity | left].
  - apply (proj2 (init_array_owner geometry_2x2 2 [2] eq_refl eq_refl)).
    simpl. lia.
Defined.

(** ** The loop form of the transport agrees with the array form *)

Lemma entry_at_spec (a : array) P V p (v : nat) :
  length a = P → Forall (λ r, length r = V) a → valid P p → (v < V)%nat →
  entry_at a p (Z.of_nat v) = Ok (entry a p (Z.of_nat v)).
Proof.
  intros HP Hcols Hp Hv. unfold entry_at, entry.
  rewrite (item_valid []) by (by rewrite HP). cbn [mbind outcome_bind].
  apply item_valid.
  assert (length (at_ [] a p) = V) as ->.
  { eapply Forall_forall in Hcols; [exact Hcols|]. apply at_elem_of. by rewrite HP. }
  by apply valid_nat.
Qed.

Lemma fdm_point_spec data P V p (v : nat) row :
  shapes data P V → valid P p → valid P (p + 1) → valid P (p - 1) → (v < V)%nat →
  result data !! pos_of P p = Some row →
  fdm_point p (Z.of_nat v) data
  = (set_result (<[pos_of P p := <[v := fdm_value data p (Z.of_nat v)]> row]>
                   (result data)) data, Ok tt).
Proof.
  intros Hsh Hp Hup Hdown Hv Hrow. unfold fdm_point.
  pose proof (vG_rows _ _ _ Hsh) as HvG.
  rewrite (item_valid []) by (rewrite HvG; by apply valid_nat).
  cbn [mbind outcome_bind].
  assert (at_ [] (vG data) (Z.of_nat v) ∈ vG data) as Hin.
  { apply at_elem_of. rewrite HvG. by apply valid_nat. }
  pose proof (vG_cols _ _ _ Hsh) as Hc. eapply Forall_forall in Hc; [|exact Hin].
  rewrite bcast_same by done. cbn [mbind outcome_bind].
  assert (item (zip_with Qplus (at_ [] (vG data) (Z.of_nat v)) (velocity_offset data)) 0
          = Ok (pv0 data (Z.of_nat v))) as ->.
  { pose proof (offset_dims _ _ _ Hsh) as Ho. unfold pv0, entry.
    rewrite !at_zero_hd.
    destruct (at_ [] (vG data) (Z.of_nat v)) as [|x xs],
             (velocity_offset data) as [|o os]; try done. }
  cbn [mbind outcome_bind].
  pose proof (state_rows _ _ _ Hsh) as HP. pose proof (state_cols _ _ _ Hsh) as HC.
  assert (∀ x, store_entry (result data) p (Z.of_nat v) x
               = Ok (<[pos_of P p := <[v := x]> row]> (result data))) as Hstore.
  { intros x. unfold store_entry. rewrite (result_rows _ _ _ Hsh).
    rewrite norm_index_valid by done. cbn [mbind outcome_bind]. rewrite Hrow.
    assert (length row = V) as ->.
    { pose proof (result_cols _ _ _ Hsh) as Hrc.
      eapply Forall_forall in Hrc; [exact Hrc|]. by eapply list_elem_of_lookup_2. }
    rewrite norm_index_valid by (by apply valid_nat). cbn [mbind outcome_bind].
    by rewrite pos_of_nat. }
  unfold fdm_value.
  destruct (Qle_bool (pv0 data (Z.of_nat v)) 0) eqn:Hle.
  - rewrite !(entry_at_spec _ P V) by done. cbn [mbind outcome_bind].
    by rewrite Hstore.
  - assert (Qltb 0 (pv0 data (Z.of_nat v)) = true) as ->.
    { unfold Qltb. by rewrite Hle. }
    rewrite !(entry_at_spec _ P V) by done. cbn [mbind outcome_bind].
    by rewrite Hstore.
Qed.

Lemma shapes_set_result data P V r :
  shapes data P V → length r = P → Forall (λ x, length x = V) r →
  shapes (set_result r data) P V.
Proof. intros [] Hl Hc. by split. Qed.

(** One pass of the inner loop over the first [n] velocities. *)
Lemma fdm_columns_spec data P V p (n : nat) row :
  shapes data P V → valid P p → valid P (p + 1) → valid P (p - 1) → (n ≤ V)%nat →
  result data !! pos_of P p = Some row →
  for_each (seqZ 0 (Z.of_nat n)) (λ v, fdm_point p v) data
  = (set_result
       (<[pos_of P p := map (fdm_value data p) (seqZ 0 (Z.of_nat n)) ++ drop n row]>
          (result data)) data, Ok tt).
Proof.
  intros Hsh Hp Hup Hdown Hn Hrow.
  assert (length row = V) as Hlrow.
  { pose proof (result_cols _ _ _ Hsh) as Hrc.
    eapply Forall_forall in Hrc; [exact Hrc|]. by eapply list_elem_of_lookup_2. }
  assert (pos_of P p < length (result data))%nat as Hk.
  { rewrite (result_rows _ _ _ Hsh). by apply pos_of_lt. }
  induction n as [|n IH].
  - cbn [for_each seqZ]. simpl. unfold skip.
    rewrite drop_0, list_insert_id by done. by destruct data.
  - rewrite seqZ_S. rewrite Z.add_0_l.
    assert (∀ (xs : list Z) (x : Z) (body : Z → action) d,
              for_each (xs ++ [x]) body d
              = (for_each xs body ;;; body x) d) as Hsnoc.
    { intros xs x body. induction xs as [|y xs IHx]; intros d;
        cbn [for_each app]; unfold seq_action, skip.
      - by destruct (body x d) as [? [[]|?]].
      - destruct (body y d) as [d' [[]|e]]; [apply IHx | done]. }
    rewrite Hsnoc. unfold seq_action at 1. rewrite IH by lia.
    set (row_n := map (fdm_value data p) (seqZ 0 (Z.of_nat n)) ++ drop n row).
    assert (length row_n = V) as Hln.
    { unfold row_n. rewrite length_app, length_map, length_seqZ, length_drop. lia. }
    set (d1 := set_result (<[pos_of P p := row_n]> (result data)) data).
    assert (shapes d1 P V) as Hsh1.
    { apply shapes_set_result; [done | |].
      - rewrite length_insert. apply (result_rows _ _ _ Hsh).
      - apply Forall_insert; [apply (result_cols _ _ _ Hsh) | done]. }
    assert (result d1 !! pos_of P p = Some row_n) as Hrow1.
    { unfold d1. cbn [result set_result]. by apply list_lookup_insert_eq. }
    rewrite (fdm_point_spec d1 P V p n row_n Hsh1 Hp Hup Hdown) by (done || lia).
    assert (fdm_value d1 p (Z.of_nat n) = fdm_value data p (Z.of_nat n)) as ->
      by reflexivity.
    unfold d1. cbn [result set_result]. rewrite list_insert_insert_eq.
    change (set_result ?a (set_result ?b data)) with (set_result a data).
    do 3 f_equal. unfold row_n.
    destruct (lookup_lt_is_Some_2 row n) as [x Hx]; [lia|].
    rewrite (drop_S _ _ _ Hx), map_app. cbn [map].
    rewrite insert_app_r_alt by (rewrite length_map, length_seqZ; lia).
    rewrite length_map, length_seqZ. replace (n - Z.to_nat (Z.of_nat n))%nat with 0%nat by lia.
    by rewrite <- app_assoc.
Qed.

(** The two loops: every addressed row is overwritten by the values of one
    of the points that address it, every other row is left alone. *)
Lemma fdm_rows_spec data P V aff :
  shapes data P V →
  Forall (λ p, valid P p ∧ valid P (p + 1) ∧ valid P (p - 1)) aff →
  ∃ r, for_each aff (λ p, for_each (seqZ 0 (Z.of_nat V)) (λ v, fdm_point p v)) data
       = (set_result r data, Ok tt)
     ∧ length r = P ∧ Forall (λ x, length x = V) r
     ∧ ∀ k, (¬ addresses P aff k → r !! k = result data !! k)
          ∧ (addresses P aff k →
               ∃ p, p ∈ aff ∧ pos_of P p = k
                 ∧ r !! k = Some (map (fdm_value data p) (seqZ 0 (Z.of_nat V)))).
Proof.
  intros Hsh Haff. revert data Hsh.
  induction Haff as [|p aff (Hp & Hup & Hdown) Haff IH]; intros data Hsh.
  - exists (result data). split_and!.
    + cbn [for_each]. unfold skip. by destruct data.
    + apply (result_rows _ _ _ Hsh).
    + apply (result_cols _ _ _ Hsh).
    + intros k. split; [done|]. intros (i & Hi & _). by apply elem_of_nil in Hi.
  - pose proof (result_rows _ _ _ Hsh) as HP.
    destruct (lookup_lt_is_Some_2 (result data) (pos_of P p)) as [row Hrow].
    { rewrite HP. by apply pos_of_lt. }
    assert (length row = V) as Hlrow.
    { pose proof (result_cols _ _ _ Hsh) as Hrc.
      eapply Forall_forall in Hrc; [exact Hrc|]. by eapply list_elem_of_lookup_2. }
    cbn [for_each]. unfold seq_action at 1.
    rewrite (fdm_columns_spec data P V p V row) by done.
    rewrite drop_ge, app_nil_r by lia.
    set (row_p := map (fdm_value data p) (seqZ 0 (Z.of_nat V))).
    assert (length row_p = V) as Hlp.
    { unfold row_p. rewrite length_map, length_seqZ. lia. }
    set (d1 := set_result (<[pos_of P p := row_p]> (result data)) data).
    destruct (IH d1) as (r & Hrun & Hl & Hc & Hlook).
    { apply shapes_set_result; [done | |].
      - by rewrite length_insert.
      - apply Forall_insert; [apply (result_cols _ _ _ Hsh) | done]. }
    exists r. split_and!; [exact Hrun | done | done |].
    intros k. destruct (Hlook k) as [Hout Hin].
    assert (Forall (valid P) aff) as Hvalid.
    { eapply Forall_impl; [exact Haff|]. by intros ? (? & ? & ?). }
    split.
    + intros Hna. rewrite Hout.
      * unfold d1. cbn [result set_result]. apply list_lookup_insert_ne.
        intros <-. apply Hna. exists p. split_and!; [left | done | done].
      * intros (i & Hi & Hvi & Hk). apply Hna. exists i. split_and!; [by right | done | done].
    + intros Ha. destruct (decide (k ∈ map (pos_of P) aff)) as [Hk | Hk].
      * apply addresses_map in Hk; [|done].
        destruct (Hin Hk) as (p' & Hp' & Hpos & Hr).
        exists p'. split_and!; [by right | done | exact Hr].
      * rewrite <- addresses_map in Hk by done.
        destruct Ha as (i & Hi & Hvi & Hpos).
        apply elem_of_cons in Hi as [-> | Hi]; [|destruct Hk; by exists i].
        exists p. split_and!; [left | done |].
        rewrite (Hout Hk). unfold d1. cbn [result set_result]. subst k.
        apply list_lookup_insert_eq. rewrite HP. by apply pos_of_lt.
Qed.

(** The value of the loop form is, as a rational, the value of the array
    form: what remains after the outflow plus the inflow. *)
Lemma fdm_value_array data p v :
  (fdm_value data p v
   == (1 - flow_fraction data v) * entry (state data) p v + inflow_value data p v)%Q.
Proof.
  unfold fdm_value, inflow_value, flow_fraction, inflow_fraction, Qdiv.
  set (x := pv0 data v).
  destruct (Qle_bool x 0) eqn:Hle.
  - apply Qle_bool_iff in Hle.
    assert (Qltb 0 x = false) as ->.
    { apply not_true_is_false. rewrite Qltb_lt. by apply Qle_not_lt. }
    destruct (Qltb x 0) eqn:Hlt; cbv iota; rewrite (Qabs_neg x Hle); [ring|].
    assert (x == 0)%Q as Hz.
    { apply Qle_antisym; [done|]. apply Qnot_lt_le. intros Hx.
      apply Qltb_lt in Hx. congruence. }
    rewrite Hz. ring.
  - assert (0 < x)%Q as Hpos.
    { apply Qnot_le_lt. intros Hx. apply Qle_bool_iff in Hx. congruence. }
    assert (Qltb 0 x = true) as -> by (by apply Qltb_lt).
    cbv iota. rewrite (Qabs_pos x) by (by apply Qlt_le_weak). ring.
Qed.

(** X15: on a well-shaped 1D state whose velocity range ends at the number
    of velocities, with every affected point and both its neighbours legal
    indices, the loop form [fdm_first_order] and the array form
    [transport_fdm_inner] both return, neither touches the state, and their
    result buffers hold equal rationals at every position, also where the
    affected points repeat. *)
Theorem fdm_first_order_agrees data P V v_range aff :
  shapes data P V → p_dim data = 1 →
  last_velocity v_range = Ok (Z.of_nat V) →
  Forall (λ p, valid P p ∧ valid P (p + 1) ∧ valid P (p - 1)) aff →
  ∃ d1 d2, fdm_first_order data v_range aff = (d1, Ok tt)
    ∧ transport_fdm_inner data aff = (d2, Ok tt)
    ∧ state d1 = state data ∧ state d2 = state data
    ∧ Forall2 (Forall2 Qeq) (result d1) (result d2).
Proof.
  intros Hsh Hdim Hsize Haff.
  destruct (fdm_rows_spec data P V aff) as (r1 & Hrun1 & Hl1 & Hc1 & Hlook1);
    [done | done |].
  assert (Forall (valid P) aff) as Hvalid.
  { eapply Forall_impl; [exact Haff|]. by intros ? (? & ? & ?). }
  destruct (transport_fdm_inner_run data P V aff)
    as (r2 & Hrun2 & Hl2 & Hc2 & Hlook2); [done | done | done | | |].
  { eapply Forall_impl; [exact Haff|]. by intros ? (? & ? & ?). }
  { eapply Forall_impl; [exact Haff|]. by intros ? (? & ? & ?). }
  exists (set_result r1 data), (set_result r2 data). split_and!; [| done | done | done |].
  { unfold fdm_first_order. rewrite bool_decide_eq_false_2 by (by intros []).
    by rewrite Hsize. }
  cbn [result set_result]. apply Forall2_same_length_lookup. split; [congruence|].
  intros k x y Hx Hy.
  destruct (Hlook1 k) as [Hout1 Hin1]. destruct (Hlook2 k) as [Hout2 Hin2].
  destruct (decide (k ∈ map (pos_of P) aff)) as [Hk | Hk].
  - apply addresses_map in Hk; [|done].
    destruct (Hin1 Hk) as (p & Hp & Hpos & Hr1).
    destruct (Hin2 p Hp Hpos) as (o & Ho & Hent).
    assert (length y = V) as Hly.
    { eapply Forall_forall in Hc2; [exact Hc2|]. by eapply list_elem_of_lookup_2. }
    assert (x = map (fdm_value data p) (seqZ 0 (Z.of_nat V))) as -> by congruence.
    assert (y = o) as -> by congruence.
    apply Forall2_same_length_lookup. split.
    { rewrite length_map, length_seqZ. lia. }
    intros c a b Ha Hb.
    assert (c < V)%nat as Hcv by (rewrite <- Hly; by eapply lookup_lt_Some).
    rewrite map_fmap, list_lookup_fmap, lookup_seqZ_lt in Ha by lia.
    cbn [fmap option_fmap option_map] in Ha. rewrite Z.add_0_l in Ha.
    rewrite (Hent c Hcv) in Hb.
    assert (a = fdm_value data p (Z.of_nat c)) as -> by congruence.
    assert (b = ((1 - flow_fraction data (Z.of_nat c))
                 * entry (state data) p (Z.of_nat c)
                 + inflow_value data p (Z.of_nat c))%Q) as -> by congruence.
    apply fdm_value_array.
  - rewrite <- addresses_map in Hk by done.
    rewrite (Hout1 Hk) in Hx. rewrite (Hout2 Hk) in Hy.
    assert (x = y) as -> by congruence.
    apply Forall_Forall2_diag, Forall_forall. intros ? _. reflexivity.
Qed.

Lemma fdm_first_order_agrees_witness :
  ∃ d1 d2, fdm_first_order data3 [[0; 2]] [1] = (d1, Ok tt)
    ∧ transport_fdm_inner data3 [1] = (d2, Ok tt)
    ∧ state d1 = state data3 ∧ state d2 = state data3
    ∧ Forall2 (Forall2 Qeq) (result d1) (result d2).
Proof.
  apply (fdm_first_order_agrees data3 3 2 [[0; 2]] [1]).
  - apply shapes_data3.
  - reflexivity.
  - reflexivity.
  - repeat constructor; unfold valid; simpl; lia.
Defined.
